(** * extract-files: a shallow embedding of [extractFiles] and [ReactNativeFile]

    The JavaScript sources embedded here are [public/extractFiles.js]
    (the function [extractFiles] with its two local helpers [addFile] and
    [recurse]) and [public/ReactNativeFile.js] (the class constructor).

    JavaScript values live in a heap: a primitive is its own value, an
    object is a reference (an address) into a store of objects.  Object
    identity is the address, so aliasing, cycles and the identity-keyed
    [Map] of extracted files are all explicit.  The store is a list and an
    address is an index in it; allocating an object appends to the list.

    Scope of the model.  An object is represented by what the source can
    observe of it: which branch of [recurse] it takes ([Array.isArray],
    [instanceof FileList], [constructor === Object], or none of them), and
    its own enumerable string-keyed data properties in [for ... in] order
    (for arrays: the elements, a hole being [None]).  Accessor properties
    of the objects given, proxies, symbol keys and inherited enumerable
    properties are outside the model, and so is the prototype of an
    object beyond the branch it selects; the predicate
    [isExtractableFile] is taken to be a pure function.  The one
    inherited accessor the source can run into, [__proto__] of
    [Object.prototype], is modelled where the source writes through it
    ([store_prop]): the write adds no own property to the clone.  When
    the value written is an object or [null] the setter also makes it
    the prototype of the clone; this, and what a prototype so chosen
    does to later writes to the clone, is not modelled.  The statements
    that read the clone back assume a heap in which no plain object has
    an own key of that name ([proto_free]), where there is no such
    write. *)

From Stdlib Require Import Ascii DecimalString DecimalNat DecimalFacts.
From stdpp Require Import gmap strings list.

(** ** Values and objects *)

(** Primitives carry their value, which the traversal never looks into;
    a number is represented by an integer. *)
Inductive val :=
| VUndefined
| VNull
| VBool (b : bool)
| VNum (n : Z)
| VStr (s : string)
| VRef (a : nat).

#[global] Instance val_eq_dec : EqDecision val.
Proof. solve_decision. Defined.

(** The four kinds of object [recurse] tells apart.  [OOther] stands for
    everything that is an object but neither an array, a [FileList] nor a
    plain [Object]: class instances, functions, dates, wrappers. *)
Inductive obj :=
| OArray (items : list (option val))
| OFileList (items : list (option val))
| OPlain (props : list (string * val))
| OOther (class : string) (props : list (string * val)).

#[global] Instance obj_eq_dec : EqDecision obj.
Proof. solve_decision. Defined.

Abbreviation heap := (list obj).

(** The [Map] of extracted files: keys compared by identity
    (SameValueZero), entries kept in insertion order. *)
Abbreviation file_map := (list (val * list string)).

Record state := mkState { st_heap : heap; st_files : file_map }.

(** What the call of a function can do: return, throw a [TypeError], or
    exceed the recursion depth the engine allows (a [RangeError] in the
    engine; here the depth budget is the [fuel] of [recurse]). *)
Inductive outcome (A : Type) :=
| Ok (a : A)
| TypeError
| StackOverflow.
Arguments Ok {A} a.
Arguments TypeError {A}.
Arguments StackOverflow {A}.

#[global] Instance outcome_ret : MRet outcome := λ A a, Ok a.

#[global] Instance outcome_bind : MBind outcome := λ A B k m,
  match m with
  | Ok a => k a
  | TypeError => TypeError
  | StackOverflow => StackOverflow
  end.

(** ** Paths *)

(** [String(index)] for an array index: its plain decimal rendering. *)
Definition string_of_index (index : nat) : string :=
  NilEmpty.string_of_uint (Nat.to_uint index).

(** Reading a decimal rendering back. *)
Definition index_of_string (s : string) : option nat :=
  Nat.of_uint <$> NilEmpty.uint_of_string s.

(** [const prefix = path ? `${path}.` : '';] *)
Definition path_prefix (path : string) : string :=
  match path with
  | EmptyString => ""
  | _ => path +:+ "."
  end.

(** [`${prefix}${key}`] with the [prefix] computed from [path]. *)
Definition child_path (path segment : string) : string :=
  path_prefix path +:+ segment.

(** ** The map of extracted files *)

Fixpoint files_get (file : val) (files : file_map) : option (list string) :=
  match files with
  | [] => None
  | (k, paths) :: rest =>
      if decide (k = file) then Some paths else files_get file rest
  end.

(** [storedPaths.push(path)]: the stored array is updated in place, so the
    entry keeps its position in the map. *)
Fixpoint files_push (file : val) (path : string) (files : file_map) : file_map :=
  match files with
  | [] => []
  | (k, paths) :: rest =>
      if decide (k = file) then (k, paths ++ [path]) :: rest
      else (k, paths) :: files_push file path rest
  end.

(** [function addFile(file, path)] *)
Definition addFile (file : val) (path : string) (files : file_map) : file_map :=
  match files_get file files with
  | Some _ => files_push file path files
  | None => files ++ [(file, [path])]
  end.

(** ** Writes to a freshly made clone *)

(** [clone[key] = v] on a plain object: an existing key keeps its place,
    a new one is added last.  (The loop of [recurse] adds the keys in the
    order [for ... in] gives them, which is the order the engine lists
    them in again.) *)
Fixpoint prop_set (key : string) (v : val) (props : list (string * val))
  : list (string * val) :=
  match props with
  | [] => [(key, v)]
  | (k, w) :: rest =>
      if decide (k = key) then (k, v) :: rest
      else (k, w) :: prop_set key v rest
  end.

Fixpoint prop_get (key : string) (props : list (string * val)) : option val :=
  match props with
  | [] => None
  | (k, w) :: rest => if decide (k = key) then Some w else prop_get key rest
  end.

(** [clone[key] = v] on the clone of [recurse], an object made by [{}].
    For every key but one this adds or sets an own property.  The key
    [__proto__] names the accessor every such object inherits, and the
    write goes to its setter: no own property is added; the setter gives
    the clone the prototype [v] when [v] is an object or [null] and does
    nothing otherwise.  The own properties of the clone are as they
    were; its prototype is not part of the model. *)
Definition store_prop (target : nat) (key : string) (v : val) (st : state) : state :=
  if decide (key = "__proto__") then st
  else
    mkState
      (alter (λ o, match o with
                   | OPlain props => OPlain (prop_set key v props)
                   | _ => o
                   end) target (st_heap st))
      (st_files st).

(** The element write of [Array.prototype.map] into its result array,
    which was created with the length of the source. *)
Definition store_item (target index : nat) (v : val) (st : state) : state :=
  mkState
    (alter (λ o, match o with
                 | OArray items => OArray (<[index := Some v]> items)
                 | _ => o
                 end) target (st_heap st))
    (st_files st).

Definition alloc (o : obj) (st : state) : nat * state :=
  (length (st_heap st), mkState (st_heap st ++ [o]) (st_files st)).

(** ** The traversal *)

(** [Array.prototype.map]: the callback runs on the elements that are
    present, in index order; holes stay holes. *)
Fixpoint map_items (callback : val → nat → state → outcome (val * state))
    (items : list (option val)) (index target : nat) (st : state)
  : outcome state :=
  match items with
  | [] => Ok st
  | None :: rest => map_items callback rest (S index) target st
  | Some item :: rest =>
      '(mapped, st') ← callback item index st ;
      map_items callback rest (S index) target (store_item target index mapped st')
  end.

(** [for (const key in value) clone[key] = body(key, value[key])] *)
Fixpoint for_in (body : string → val → state → outcome (val * state))
    (props : list (string * val)) (target : nat) (st : state)
  : outcome state :=
  match props with
  | [] => Ok st
  | (key, v) :: rest =>
      '(cloned, st') ← body key v st ;
      for_in body rest target (store_prop target key cloned st')
  end.

(** [recursed.has(value)]; [recursed] is [None] when the argument was
    left out of the call, and reading [.has] of [undefined] throws. *)
Definition recursed_has (recursed : option (gset nat)) (a : nat) : outcome bool :=
  match recursed with
  | None => TypeError
  | Some s => Ok (bool_decide (a ∈ s))
  end.

(** [new Set(recursed).add(value)]; [new Set(undefined)] is the empty set. *)
Definition recursed_add (recursed : option (gset nat)) (a : nat) : option (gset nat) :=
  Some ({[a]} ∪ default ∅ recursed).

Section extract.

(** [typeof FileList !== 'undefined'] *)
Variable FileList_defined : bool.

(** The third argument of [extractFiles]. *)
Variable isExtractableFile : heap → val → bool.

Fixpoint recurse (fuel : nat) (value : val) (path : string)
    (recursed : option (gset nat)) (st : state) : outcome (val * state) :=
  match fuel with
  | 0 => StackOverflow
  | S fuel' =>
      if isExtractableFile (st_heap st) value
      then Ok (VNull, mkState (st_heap st) (addFile value path (st_files st)))
      else
        match value with
        | VRef a =>
            match st_heap st !! a with
            | Some (OFileList items) =>
                if FileList_defined then
                  let '(clone, st1) :=
                    alloc (OArray (replicate (length items) None)) st in
                  st2 ← map_items
                          (λ item index,
                             recurse fuel' item
                               (child_path path (string_of_index index)) None)
                          items 0 clone st1 ;
                  Ok (VRef clone, st2)
                else Ok (value, st)
            | Some (OArray items) =>
                seen ← recursed_has recursed a ;
                if (seen : bool) then Ok (value, st)
                else
                  let '(clone, st1) :=
                    alloc (OArray (replicate (length items) None)) st in
                  st2 ← map_items
                          (λ item index,
                             recurse fuel' item
                               (child_path path (string_of_index index))
                               (recursed_add recursed a))
                          items 0 clone st1 ;
                  Ok (VRef clone, st2)
            | Some (OPlain props) =>
                seen ← recursed_has recursed a ;
                if (seen : bool) then Ok (value, st)
                else
                  let '(clone, st1) := alloc (OPlain []) st in
                  st2 ← for_in
                          (λ key v,
                             recurse fuel' v (child_path path key)
                               (recursed_add recursed a))
                          props clone st1 ;
                  Ok (VRef clone, st2)
            | _ => Ok (value, st)
            end
        | _ => Ok (value, st)
        end
  end.

(** The result record [{ clone, files }], together with the heap the
    clone lives in. *)
Record result := mkResult
  { res_clone : val; res_files : file_map; res_heap : heap }.

(** [function extractFiles(value, path = '', isExtractableFile)] run on
    the heap [h]. *)
Definition extractFiles (fuel : nat) (h : heap) (value : val) (path : string)
  : outcome result :=
  '(clone, st) ← recurse fuel value path (Some ∅) (mkState h []) ;
  Ok (mkResult clone (st_files st) (st_heap st)).

End extract.

Definition is_file_class (class : string) : bool :=
  bool_decide (class = "File") || bool_decide (class = "Blob")
  || bool_decide (class = "ReactNativeFile").

(** Modelled from the spec: the module [./isExtractableFile] required by
    [extractFiles.js] is missing; the default predicate holds of
    instances of the platform file type, the platform blob type and the
    [ReactNativeFile] marker class. *)
Definition defaultIsExtractableFile (h : heap) (value : val) : bool :=
  match value with
  | VRef a =>
      match h !! a with
      | Some (OOther class _) => is_file_class class
      | _ => false
      end
  | _ => false
  end.

(** ** The marker class *)

(** [source[key]] for a property read by destructuring: the value of the
    property, [undefined] when the source has none of that name. *)
Definition get_property (h : heap) (source : val) (key : string) : val :=
  match source with
  | VRef a =>
      match h !! a with
      | Some (OPlain props) | Some (OOther _ props) =>
          default VUndefined (prop_get key props)
      | _ => VUndefined
      end
  | _ => VUndefined
  end.

(** [new ReactNativeFile(file)]: [constructor({ uri, name, type })]
    destructures its argument, which throws on [undefined] and [null],
    and assigns the three fields of the new instance in turn. *)
Definition ReactNativeFile (h : heap) (file : val) : outcome (val * heap) :=
  match file with
  | VUndefined | VNull => TypeError
  | _ =>
      let uri := get_property h file "uri" in
      let name := get_property h file "name" in
      let type := get_property h file "type" in
      let this := prop_set "type" type (prop_set "name" name (prop_set "uri" uri [])) in
      Ok (VRef (length h), h ++ [OOther "ReactNativeFile" this])
  end.

(** ** Notions used in the statements *)

(** A callback that only extends the heap it is given. *)
Definition extends_heap {K} (f : K → state → outcome (val * state)) : Prop :=
  ∀ k st r st', f k st = Ok (r, st') → st_heap st `prefix_of` st_heap st'.

(** A nested call made by one of the two loops: the state before it, the
    value it returned and the state after it. *)
Abbreviation run := (state * val * state)%type.
Definition run_result (r : run) : val := r.1.2.


(** *** Well-formed inputs *)

(** A value of the heap [h]: a primitive, or a reference to one of its
    objects. *)
Definition val_in (h : heap) (v : val) : Prop :=
  match v with
  | VRef a => a < length h
  | _ => True
  end.

#[global] Instance val_in_dec h v : Decision (val_in h v).
Proof. destruct v; simpl; apply _. Defined.

Definition obj_vals (o : obj) : list val :=
  match o with
  | OArray items | OFileList items => omap id items
  | OPlain props | OOther _ props => props.*2
  end.

Definition obj_keys (o : obj) : list string :=
  match o with
  | OPlain props | OOther _ props => props.*1
  | _ => []
  end.

(** Objects refer to objects of the heap only, and an object has each of
    its keys once. *)
Definition wf_obj (h : heap) (o : obj) : Prop :=
  Forall (val_in h) (obj_vals o) ∧ NoDup (obj_keys o).

Definition wf_heap (h : heap) : Prop := Forall (wf_obj h) h.

(** No plain object of the heap has an own property named [__proto__]
    (as the object [JSON.parse('{"__proto__": 1}')] has): the one key a
    write to the clone does not add. *)
Definition own_proto_free (o : obj) : Prop :=
  match o with
  | OPlain props => "__proto__" ∉ props.*1
  | _ => True
  end.

#[global] Instance own_proto_free_dec o : Decision (own_proto_free o).
Proof. destruct o; simpl; apply _. Defined.

Definition proto_free (h : heap) : Prop := Forall own_proto_free h.

(** A predicate whose answer on a value does not change when objects are
    added to the heap, as is the case of a test of the class and the
    contents of the object given. *)
Definition stable (P : heap → val → bool) : Prop :=
  ∀ (h h' : heap) v, h `prefix_of` h' → val_in h v → P h' v = P h v.

Definition is_container (h : heap) (v : val) : bool :=
  match v with
  | VRef a =>
      match h !! a with
      | Some (OArray _) | Some (OFileList _) | Some (OPlain _) => true
      | _ => false
      end
  | _ => false
  end.



(** The objects [recurse] clones when it enters them. *)
Definition clonable (o : obj) : bool :=
  match o with
  | OArray _ | OPlain _ => true
  | _ => false
  end.

(** Two arrays of the same length, or two plain objects with the same
    keys in the same order. *)
Definition same_shape (o o' : obj) : Prop :=
  match o, o' with
  | OArray items, OArray items' => length items = length items'
  | OPlain props, OPlain props' => props.*1 = props'.*1
  | _, _ => False
  end.

(** *** Positions *)

(** The children of an object, in order; [None] is a hole of an array. *)
Definition obj_children (o : obj) : list (option val) :=
  match o with
  | OArray items | OFileList items => items
  | OPlain props | OOther _ props => Some <$> props.*2
  end.

(** The place among the children that a path segment names: the place
    of the key, or the index a canonical decimal string renders. *)
Definition slot_of (o : obj) (segment : string) : option nat :=
  match o with
  | OPlain props | OOther _ props =>
      fst <$> list_find (λ key, key = segment) props.*1
  | OArray items | OFileList items =>
      i ← index_of_string segment;
      if decide (string_of_index i = segment) then Some i else None
  end.

(** [o[segment]] *)
Definition get_child (o : obj) (segment : string) : option val :=
  i ← slot_of o segment; mjoin (obj_children o !! i).

(** [value[segment1][segment2]...] in the heap [h]. *)
Fixpoint follow (h : heap) (v : val) (route : list string) : option val :=
  match route with
  | [] => Some v
  | segment :: rest =>
      match v with
      | VRef a => o ← h !! a; child ← get_child o segment; follow h child rest
      | _ => None
      end
  end.

(** The route leads from [v] to the container at address [x] through
    arrays and plain objects only, none of them extractable and none of
    them met before on the way (nor in [s]): the position is reached
    without going through a cycle, and [x] is not its own ancestor. *)
Fixpoint enters (P : heap → val → bool) (h : heap) (s : gset nat) (v : val)
    (route : list string) (x : nat) : bool :=
  negb (P h v) &&
  match v with
  | VRef a =>
      bool_decide (a ∉ s) &&
      match h !! a with
      | Some o =>
          clonable o &&
          match route with
          | [] => bool_decide (x = a)
          | segment :: rest =>
              match get_child o segment with
              | Some child => enters P h ({[a]} ∪ s) child rest x
              | None => false
              end
          end
      | None => false
      end
  | _ => false
  end.

(** Two heaps with the same objects at the addresses from [lo] up to,
    not including, [hi]. *)
Definition agrees (lo hi : nat) (h h' : heap) : Prop :=
  ∀ a, lo ≤ a → a < hi → h !! a = h' !! a.

(** *** The leaves of a value, as the specification describes them *)

Definition under_segment (segment : string) (found : list (val * list string))
  : list (val * list string) :=
  prod_map id (cons segment) <$> found.

Fixpoint under_items (sub : val → list (val * list string))
    (items : list (option val)) (index : nat) : list (val * list string) :=
  match items with
  | [] => []
  | None :: rest => under_items sub rest (S index)
  | Some item :: rest =>
      under_segment (string_of_index index) (sub item)
      ++ under_items sub rest (S index)
  end.

Fixpoint under_props (sub : val → list (val * list string))
    (props : list (string * val)) : list (val * list string) :=
  match props with
  | [] => []
  | (key, v) :: rest => under_segment key (sub v) ++ under_props sub rest
  end.

Section leaves.

Variable FileList_defined : bool.
Variable isExtractableFile : heap → val → bool.

(** Follows the spec's words (section 4.1, steps 1 to 5): the
    extractable leaves of [value] in depth-first pre-order, each with
    its route, the keys and indices that lead to it from [value].
    Containers on the current branch ([recursed]) are not entered, and
    the entries of a file list are visited with no such set.  This is a
    function of the input heap alone: it builds no clone and no map. *)
Fixpoint leaf_routes (fuel : nat) (h : heap) (value : val)
    (recursed : option (gset nat)) : list (val * list string) :=
  match fuel with
  | 0 => []
  | S fuel' =>
      if isExtractableFile h value then [(value, [])]
      else
        match value with
        | VRef a =>
            match h !! a with
            | Some (OFileList items) =>
                if FileList_defined
                then under_items (λ item, leaf_routes fuel' h item None) items 0
                else []
            | Some (OArray items) =>
                if bool_decide (a ∈ default ∅ recursed) then []
                else under_items
                       (λ item, leaf_routes fuel' h item (recursed_add recursed a))
                       items 0
            | Some (OPlain props) =>
                if bool_decide (a ∈ default ∅ recursed) then []
                else under_props
                       (λ v, leaf_routes fuel' h v (recursed_add recursed a))
                       props
            | _ => []
            end
        | _ => []
        end
  end.

End leaves.

(** The path recorded for a leaf: the caller's prefix extended by the
    segments of the route, one [child_path] step each. *)
Definition path_of_route (path : string) (route : list string) : string :=
  foldl child_path path route.

(** The calls of [addFile] for a list of leaves, in order. *)
Definition record_all (path : string) (found : list (val * list string))
    (files : file_map) : file_map :=
  foldl (λ fs leaf, addFile leaf.1 (path_of_route path leaf.2) fs) files found.

(** The log of the calls of [addFile] for a list of leaves: each leaf
    with the path recorded for it. *)
Definition log_of (path : string) (found : list (val * list string))
  : list (val * string) :=
  (λ leaf, (leaf.1, path_of_route path leaf.2)) <$> found.

(** Follows the spec's words (section 3, Path Index): one entry per leaf
    identity, entries in the order the leaves were first seen, and in
    each entry every path of that leaf, in the order seen. *)
Fixpoint first_seen (l : list val) : list val :=
  match l with
  | [] => []
  | x :: rest => x :: filter (λ y, y ≠ x) (first_seen rest)
  end.

Definition paths_of (file : val) (log : list (val * string)) : list string :=
  (filter (λ e, e.1 = file) log).*2.

Definition path_index (log : list (val * string)) : file_map :=
  (λ file, (file, paths_of file log)) <$> first_seen log.*1.

(** *** What [recurse] does not enter *)

(** The values [recurse] returns as they are when the predicate rejects
    them: everything but arrays and plain objects, and but file lists
    where [FileList] is defined. *)
Definition passes_through (fl : bool) (h : heap) (v : val) : bool :=
  match v with
  | VRef a =>
      match h !! a with
      | Some (OArray _) | Some (OPlain _) => false
      | Some (OFileList _) => negb fl
      | _ => true
      end
  | _ => true
  end.

(** The set [recursed] holds when the children of the container at the
    end of [route] are visited: [s] and the containers on the way, the
    last one included. *)
Fixpoint visited_at (h : heap) (s : gset nat) (v : val) (route : list string)
  : gset nat :=
  match v with
  | VRef a =>
      match route with
      | [] => {[a]} ∪ s
      | segment :: rest =>
          match h !! a ≫= λ o, get_child o segment with
          | Some child => visited_at h ({[a]} ∪ s) child rest
          | None => {[a]} ∪ s
          end
      end
  | _ => s
  end.

(** The calls of [addFile] the entries of a file list give rise to
    when each entry that is present is extractable: one for each, in
    index order, at the path of its index. *)
Fixpoint add_items (path : string) (items : list (option val)) (index : nat)
    (files : file_map) : file_map :=
  match items with
  | [] => files
  | None :: rest => add_items path rest (S index) files
  | Some item :: rest =>
      add_items path rest (S index)
        (addFile item (child_path path (string_of_index index)) files)
  end.

(** *** Segments that paths keep apart *)

(** A segment in which no ["."] occurs. *)
Fixpoint dot_free (segment : string) : bool :=
  match segment with
  | EmptyString => true
  | String c rest => negb (Ascii.eqb c ".") && dot_free rest
  end.

(** A segment that is not empty and has no ["."]: an array index, or a
    key such as an identifier. *)
Definition plain_segment (segment : string) : bool :=
  negb (String.eqb segment "") && dot_free segment.

(** *** What of the map of files does not depend on the paths *)

(** The keys of the map, in order, each with the number of its paths. *)
Definition counts (files : file_map) : list (val * nat) :=
  (λ entry, (entry.1, length entry.2)) <$> files.

(** ** Inputs: those of [extractFiles.test.js], and two more *)

Module Tests.

Definition file : obj :=
  OOther "ReactNativeFile" [("uri", VStr ""); ("name", VStr ""); ("type", VStr "")].

(** [original = {}; original.b = original] *)
Definition circular : heap := [OPlain [("b", VRef 0)]].

(** [array = [file]; input = { a: array, b: array }] *)
Definition shared_array : heap :=
  [OPlain [("a", VRef 1); ("b", VRef 1)]; OArray [Some (VRef 2)]; file].

(** [{ a: [file] }] *)
Definition nested : heap :=
  [OPlain [("a", VRef 1)]; OArray [Some (VRef 2)]; file].

(** [{ a: file, b: file }] *)
Definition same_file_twice : heap :=
  [OPlain [("a", VRef 1); ("b", VRef 1)]; file].

(** [{ a: fileA, b: fileB }], two instances with the same contents *)
Definition two_files : heap :=
  [OPlain [("a", VRef 1); ("b", VRef 2)]; file; file].

(** [fileList = new FileList([file0, file1])], with [class File {}] *)
Definition file_list : heap :=
  [OFileList [Some (VRef 1); Some (VRef 2)]; OOther "File" []; OOther "File" []].

(** [{ a: { a: file } }] *)
Definition nested_object : heap :=
  [OPlain [("a", VRef 1)]; OPlain [("a", VRef 2)]; file].

(** [[[file]]] *)
Definition nested_array : heap :=
  [OArray [Some (VRef 1)]; OArray [Some (VRef 2)]; file].

(** [new Date(2019, 0, 20)], [{ a: value }] and [[value]] *)
Definition date : heap :=
  [OOther "Date" []; OPlain [("a", VRef 0)]; OArray [Some (VRef 0)]].

(** [file = new CustomFile()] with [class CustomFile {}] *)
Definition custom_file : heap := [OOther "CustomFile" []].

(** [(value) => value instanceof CustomFile] *)
Definition isCustomFile (h : heap) (value : val) : bool :=
  match value with
  | VRef a =>
      match h !! a with
      | Some (OOther class _) => bool_decide (class = "CustomFile")
      | _ => false
      end
  | _ => false
  end.


(** [{ '': { a: file } }] (not among the tests) *)
Definition empty_key : heap :=
  [OPlain [("", VRef 1)]; OPlain [("a", VRef 2)]; file].

End Tests.

(** * Properties *)

(** ** Strings, paths and index segments *)

Lemma string_app_assoc (s1 s2 s3 : string) :
  (s1 +:+ s2) +:+ s3 = s1 +:+ s2 +:+ s3.
Proof.
  induction s1 as [|c s1 IH]; [done|].
  change (String c ((s1 +:+ s2) +:+ s3) = String c (s1 +:+ s2 +:+ s3)).
  by f_equal.
Qed.

Lemma child_path_step (path segment : string) :
  child_path path segment
  = match path with
    | "" => segment
    | _ => path +:+ "." +:+ segment
    end.
Proof.
  unfold child_path, path_prefix. destruct path; [done|].
  by rewrite string_app_assoc.
Qed.

Lemma concat_cons_nonempty (sep first : string) (rest : list string) :
  rest ≠ [] →
  String.concat sep (first :: rest) = first +:+ sep +:+ String.concat sep rest.
Proof. by destruct rest. Qed.

(** From a non-empty path on, every segment is added after a ["."]. *)
Lemma path_of_route_join (path : string) (route : list string) :
  path ≠ "" → path_of_route path route = String.concat "." (path :: route).
Proof.
  revert path. induction route as [|segment route IH]; intros path Hne; [done|].
  change (path_of_route path (segment :: route))
    with (path_of_route (child_path path segment) route).
  rewrite child_path_step. destruct path as [|c path]; [done|].
  rewrite IH by done.
  rewrite (concat_cons_nonempty "." (String c path)) by done.
  destruct route as [|next route]; [done|].
  rewrite !concat_cons_nonempty by done.
  by rewrite !string_app_assoc.
Qed.

Lemma to_uint_normal (i : nat) : Decimal.unorm (Nat.to_uint i) = Nat.to_uint i.
Proof. by rewrite <- Unsigned.to_of, Unsigned.of_to. Qed.

Lemma normal_no_leading_zero (d : Decimal.uint) :
  Decimal.unorm d = d →
  d = Decimal.D0 Decimal.Nil ∨ ∀ d', d ≠ Decimal.D0 d'.
Proof.
  intros Hnorm.
  destruct (Decimal.uint_eq_dec (Decimal.nzhead d) Decimal.Nil) as [Hz|Hnz].
  - left. rewrite <- Hnorm. by apply unorm_0.
  - right. intros d' ->. rewrite unorm_nzhead in Hnorm by done.
    by apply (nzhead_nonzero (Decimal.D0 d') d').
Qed.

Lemma string_of_index_no_leading_zero (i : nat) :
  string_of_index i = "0"
  ∨ ∃ c s, string_of_index i = String c s ∧ c ≠ "0"%char.
Proof.
  unfold string_of_index.
  destruct (normal_no_leading_zero _ (to_uint_normal i)) as [->|Hnz]; [by left|].
  right. pose proof (unorm_nonnil (Nat.to_uint i)) as Hnil.
  rewrite to_uint_normal in Hnil.
  destruct (Nat.to_uint i) as [|d|d|d|d|d|d|d|d|d|d]; simpl;
    [done|by destruct (Hnz d)|by eexists _, _..].
Qed.

Lemma index_of_string_of_index (i : nat) :
  index_of_string (string_of_index i) = Some i.
Proof.
  unfold index_of_string, string_of_index.
  rewrite NilEmpty.usu. simpl. by rewrite Unsigned.of_to.
Qed.

Lemma string_of_index_nonempty (i : nat) : string_of_index i ≠ "".
Proof.
  destruct (string_of_index_no_leading_zero i) as [->|(c & s & -> & _)]; done.
Qed.

(** ** Generic facts on outcomes, heaps and the two loops *)

Lemma bind_Ok_inv {A B} (m : outcome A) (k : A → outcome B) (b : B) :
  (m ≫= k) = Ok b → ∃ a, m = Ok a ∧ k a = Ok b.
Proof. destruct m as [a| |]; simpl; [eauto | done | done]. Qed.

Lemma prefix_alter_ge (f : obj → obj) (h0 h : heap) (i : nat) :
  h0 `prefix_of` h → length h0 ≤ i → h0 `prefix_of` alter f i h.
Proof.
  intros [k ->] Hle. rewrite alter_app_r_alt by done. by apply prefix_app_r.
Qed.

Lemma store_item_prefix (h0 : heap) target index v st :
  h0 `prefix_of` st_heap st → length h0 ≤ target →
  h0 `prefix_of` st_heap (store_item target index v st).
Proof. intros. by apply prefix_alter_ge. Qed.

Lemma store_prop_prefix (h0 : heap) target key v st :
  h0 `prefix_of` st_heap st → length h0 ≤ target →
  h0 `prefix_of` st_heap (store_prop target key v st).
Proof.
  intros. unfold store_prop. destruct (decide (key = "__proto__")); [done|].
  by apply prefix_alter_ge.
Qed.

Lemma store_item_length target index v st :
  length (st_heap (store_item target index v st)) = length (st_heap st).
Proof. apply length_alter. Qed.

Lemma store_prop_length target key v st :
  length (st_heap (store_prop target key v st)) = length (st_heap st).
Proof.
  unfold store_prop. destruct (decide (key = "__proto__")); [done|].
  apply length_alter.
Qed.

Lemma store_prop_files target key v st :
  st_files (store_prop target key v st) = st_files st.
Proof. unfold store_prop. by destruct (decide (key = "__proto__")). Qed.

Lemma map_items_prefix callback items index target st st' (h0 : heap) :
  (∀ item i, extends_heap (λ _ : unit, callback item i)) →
  map_items callback items index target st = Ok st' →
  h0 `prefix_of` st_heap st → length h0 ≤ target →
  h0 `prefix_of` st_heap st'.
Proof.
  intros Hcb. revert index st.
  induction items as [|[item|] rest IH]; intros index st Hrun Hpre Hle; simpl in Hrun.
  - by inversion Hrun; subst.
  - apply bind_Ok_inv in Hrun as ([mapped st1] & Hcall & Hrun).
    eapply IH; [exact Hrun | | done].
    apply store_item_prefix; [|done].
    etrans; [exact Hpre|]. exact (Hcb item index () st mapped st1 Hcall).
  - by eapply IH.
Qed.

Lemma for_in_prefix body props target st st' (h0 : heap) :
  (∀ key, extends_heap (body key)) →
  for_in body props target st = Ok st' →
  h0 `prefix_of` st_heap st → length h0 ≤ target →
  h0 `prefix_of` st_heap st'.
Proof.
  intros Hbody. revert st.
  induction props as [|[key v] rest IH]; intros st Hrun Hpre Hle; simpl in Hrun.
  - by inversion Hrun; subst.
  - apply bind_Ok_inv in Hrun as ([cloned st1] & Hcall & Hrun).
    eapply IH; [exact Hrun | | done].
    apply store_prop_prefix; [|done].
    etrans; [exact Hpre|]. exact (Hbody key v st cloned st1 Hcall).
Qed.

Lemma record_all_app path found1 found2 files :
  record_all path (found1 ++ found2) files
  = record_all path found2 (record_all path found1 files).
Proof. apply foldl_app. Qed.

Lemma record_all_under path segment found files :
  record_all path (under_segment segment found) files
  = record_all (child_path path segment) found files.
Proof.
  revert files. induction found as [|[file route] found IH]; intros files; [done|].
  apply IH.
Qed.

Lemma wf_heap_lookup (h : heap) a o : wf_heap h → h !! a = Some o → wf_obj h o.
Proof. intros Hwf Ha. by eapply (proj1 (Forall_lookup _ _)) in Hwf. Qed.

Lemma proto_free_lookup (h : heap) a o :
  proto_free h → h !! a = Some o → own_proto_free o.
Proof. intros Hfree Ha. by eapply (proj1 (Forall_lookup _ _)) in Hfree. Qed.

Lemma lookup_prefix_in (h h' : heap) a :
  h `prefix_of` h' → a < length h → h' !! a = h !! a.
Proof. intros Hpre Hlt. symmetry. by apply prefix_lookup_lt. Qed.

Lemma map_items_files (h0 : heap) path sub callback items index target st st' :
  (∀ item i s r s',
     val_in h0 item → h0 `prefix_of` st_heap s → callback item i s = Ok (r, s') →
     h0 `prefix_of` st_heap s'
     ∧ st_files s' = record_all (child_path path (string_of_index i)) (sub item) (st_files s)) →
  Forall (val_in h0) (omap id items) →
  h0 `prefix_of` st_heap st → length h0 ≤ target →
  map_items callback items index target st = Ok st' →
  h0 `prefix_of` st_heap st'
  ∧ st_files st' = record_all path (under_items sub items index) (st_files st).
Proof.
  intros Hcb. revert index st.
  induction items as [|[item|] rest IH]; intros index st Hin Hpre Hle Hrun;
    simpl in Hrun.
  - by inversion Hrun; subst.
  - apply bind_Ok_inv in Hrun as ([mapped st1] & Hcall & Hrun).
    simpl in Hin. apply Forall_cons in Hin as [Hitem Hin].
    destruct (Hcb _ _ _ _ _ Hitem Hpre Hcall) as [Hpre1 Hfiles1].
    eapply IH in Hrun as [Hpre' Hfiles']; [|done|by apply store_item_prefix|done].
    split; [done|].
    simpl. rewrite record_all_app, record_all_under, <- Hfiles1. exact Hfiles'.
  - simpl in Hin. by eapply IH.
Qed.

Lemma for_in_files (h0 : heap) path sub body props target st st' :
  (∀ key v s r s',
     val_in h0 v → h0 `prefix_of` st_heap s → body key v s = Ok (r, s') →
     h0 `prefix_of` st_heap s'
     ∧ st_files s' = record_all (child_path path key) (sub v) (st_files s)) →
  Forall (val_in h0) props.*2 →
  h0 `prefix_of` st_heap st → length h0 ≤ target →
  for_in body props target st = Ok st' →
  h0 `prefix_of` st_heap st'
  ∧ st_files st' = record_all path (under_props sub props) (st_files st).
Proof.
  intros Hbody. revert st.
  induction props as [|[key v] rest IH]; intros st Hin Hpre Hle Hrun;
    simpl in Hrun.
  - by inversion Hrun; subst.
  - apply bind_Ok_inv in Hrun as ([cloned st1] & Hcall & Hrun).
    simpl in Hin. apply Forall_cons in Hin as [Hv Hin].
    destruct (Hbody _ _ _ _ _ Hv Hpre Hcall) as [Hpre1 Hfiles1].
    eapply IH in Hrun as [Hpre' Hfiles']; [|done|by apply store_prop_prefix|done].
    rewrite store_prop_files in Hfiles'. split; [done|].
    simpl. rewrite record_all_app, record_all_under, <- Hfiles1. exact Hfiles'.
Qed.





Lemma prop_set_fresh key v (props : list (string * val)) :
  key ∉ props.*1 → prop_set key v props = props ++ [(key, v)].
Proof.
  induction props as [|[k w] props IH]; intros Hnew; simpl; [done|].
  simpl in Hnew. apply not_elem_of_cons in Hnew as [Hne Hnew].
  rewrite decide_False by done. by rewrite IH.
Qed.

Lemma store_prop_lookup target key v st props :
  key ≠ "__proto__" →
  st_heap st !! target = Some (OPlain props) →
  st_heap (store_prop target key v st) !! target
  = Some (OPlain (prop_set key v props)).
Proof.
  intros Hkey Ht. unfold store_prop. rewrite decide_False by done. simpl.
  by rewrite list_lookup_alter_eq, Ht.
Qed.

Lemma store_item_lookup target index v st items :
  st_heap st !! target = Some (OArray items) →
  st_heap (store_item target index v st) !! target
  = Some (OArray (<[index := Some v]> items)).
Proof. intros Ht. simpl. by rewrite list_lookup_alter_eq, Ht. Qed.

Lemma lookup_store_prop_ne target key v st a :
  a ≠ target → st_heap (store_prop target key v st) !! a = st_heap st !! a.
Proof.
  intros Hne. unfold store_prop. destruct (decide (key = "__proto__")); [done|].
  simpl. by rewrite list_lookup_alter_ne.
Qed.

(** The loops leave every object but the clone they fill as it is. *)
Lemma for_in_frame body props target st st' :
  (∀ key, extends_heap (body key)) →
  for_in body props target st = Ok st' →
  length (st_heap st) ≤ length (st_heap st')
  ∧ ∀ a, a ≠ target → a < length (st_heap st) →
      st_heap st' !! a = st_heap st !! a.
Proof.
  intros Hbody. revert st.
  induction props as [|[key v] rest IH]; intros st Hrun; simpl in Hrun.
  - by inversion Hrun; subst.
  - apply bind_Ok_inv in Hrun as ([c st1] & Hcall & Hrun).
    pose proof (Hbody key v st c st1 Hcall) as Hext.
    pose proof (prefix_length _ _ Hext) as Hlen.
    apply IH in Hrun as [Hlen' Hsame]. rewrite store_prop_length in Hlen', Hsame.
    split; [lia|]. intros a Hne Hlt.
    rewrite Hsame by (done || lia).
    etrans; [apply (lookup_store_prop_ne target key c st1 a Hne)|].
    by apply lookup_prefix_in.
Qed.

Lemma lookup_store_item_ne target index v st a :
  a ≠ target → st_heap (store_item target index v st) !! a = st_heap st !! a.
Proof. intros Hne. simpl. by rewrite list_lookup_alter_ne. Qed.

Lemma map_items_frame callback items index target st st' :
  (∀ item i, extends_heap (λ _ : unit, callback item i)) →
  map_items callback items index target st = Ok st' →
  length (st_heap st) ≤ length (st_heap st')
  ∧ ∀ a, a ≠ target → a < length (st_heap st) →
      st_heap st' !! a = st_heap st !! a.
Proof.
  intros Hcb. revert index st.
  induction items as [|[item|] rest IH]; intros index st Hrun; simpl in Hrun.
  - by inversion Hrun; subst.
  - apply bind_Ok_inv in Hrun as ([c st1] & Hcall & Hrun).
    pose proof (Hcb item index () st c st1 Hcall) as Hext.
    pose proof (prefix_length _ _ Hext) as Hlen.
    apply IH in Hrun as [Hlen' Hsame]. rewrite store_item_length in Hlen', Hsame.
    split; [lia|]. intros a Hne Hlt.
    rewrite Hsame by (done || lia).
    etrans; [apply (lookup_store_item_ne target index c st1 a Hne)|].
    by apply lookup_prefix_in.
  - by apply IH in Hrun.
Qed.

(** The nested calls of the [for ... in] loop, one for each key: each
    starts from a heap that extends the input, the objects it adds are
    still there when the loop ends, and the objects added by an earlier
    call come before those of a later one. *)
Lemma for_in_runs (h0 : heap) body props target st st' acc :
  (∀ key, extends_heap (body key)) →
  NoDup (acc.*1 ++ props.*1) →
  st_heap st !! target = Some (OPlain acc) →
  h0 `prefix_of` st_heap st → length h0 ≤ target →
  for_in body props target st = Ok st' →
  ∃ runs : list run,
    length runs = length props
    ∧ ("__proto__" ∉ props.*1 →
       st_heap st' !! target
       = Some (OPlain (acc ++ zip props.*1 (run_result <$> runs))))
    ∧ (∀ i key v s1 c s2,
         props !! i = Some (key, v) → runs !! i = Some (s1, c, s2) →
         body key v s1 = Ok (c, s2)
         ∧ h0 `prefix_of` st_heap s1
         ∧ length (st_heap st) ≤ length (st_heap s1)
         ∧ length (st_heap s2) ≤ length (st_heap st')
         ∧ ∀ a, length (st_heap s1) ≤ a → a < length (st_heap s2) →
             st_heap st' !! a = st_heap s2 !! a)
    ∧ (∀ i j si ci si' sj cj sj',
         i < j → runs !! i = Some (si, ci, si') → runs !! j = Some (sj, cj, sj') →
         length (st_heap si') ≤ length (st_heap sj)).
Proof.
  intros Hbody. revert st acc.
  induction props as [|[key v] rest IH]; intros st acc Hnd Ht Hpre Hle Hrun;
    simpl in Hrun.
  - inversion Hrun; subst. exists []. simpl. rewrite app_nil_r.
    split_and!; [done|done|by intros [|i]..].
  - apply bind_Ok_inv in Hrun as ([c st1] & Hcall & Hrun).
    pose proof (Hbody key v st c st1 Hcall) as Hext.
    pose proof (prefix_length _ _ Hext) as Hlen1.
    assert (Htlt : target < length (st_heap st)) by (by eapply lookup_lt_Some).
    assert (Ht1 : st_heap st1 !! target = Some (OPlain acc))
      by (by eapply prefix_lookup_Some).
    simpl in Hnd.
    assert (Hacc : ∃ acc',
               st_heap (store_prop target key c st1) !! target
               = Some (OPlain acc')
               ∧ NoDup (acc'.*1 ++ rest.*1)
               ∧ (key ≠ "__proto__" → acc' = acc ++ [(key, c)])).
    { destruct (decide (key = "__proto__")) as [Hkey|Hkey].
      - exists acc. unfold store_prop. rewrite decide_True by done.
        split_and!; [done| |done].
        apply NoDup_app in Hnd as (Hnd1 & Hdisj & [_ Hnd2]%NoDup_cons).
        apply NoDup_app. split_and!; [done| |done].
        intros x Hx Hin. apply (Hdisj x Hx). by right.
      - exists (acc ++ [(key, c)]).
        apply (store_prop_lookup _ key c) in Ht1; [|done].
        rewrite prop_set_fresh in Ht1.
        2:{ apply NoDup_app in Hnd as (_ & Hdisj & _). intros Hin.
            apply (Hdisj key Hin). by left. }
        split_and!; [done| |done].
        rewrite fmap_app. simpl. by rewrite <- app_assoc. }
    destruct Hacc as (acc' & Ht1' & Hnd' & Hacc').
    pose proof (for_in_frame _ _ _ _ _ Hbody Hrun) as [Hlen' Hsame].
    rewrite store_prop_length in Hlen', Hsame.
    eapply IH in Hrun as (runs & Hlen & Hfinal & Hall & Hord);
      [|exact Hnd'|exact Ht1'| |done].
    + exists ((st, c, st1) :: runs). split_and!.
      * simpl. by rewrite Hlen.
      * intros [Hkey Hrest]%not_elem_of_cons.
        rewrite Hfinal by done. rewrite Hacc' by done. csimpl.
        by rewrite <- app_assoc.
      * intros [|i] key' v' s1 c' s2 Hp Hr; simpl in Hp, Hr.
        -- inversion Hp; inversion Hr; subst. split_and!; [done|done|done|done|].
           intros a Hge Hlt. rewrite Hsame by lia.
           apply lookup_store_prop_ne. lia.
        -- destruct (Hall i key' v' s1 c' s2 Hp Hr) as (Hb & Hp1 & Hl1 & Hl2 & Hkeep).
           rewrite store_prop_length in Hl1.
           split_and!; [done|done|lia|done|done].
      * intros [|i] [|j] si ci si' sj cj sj' Hij Hi Hj; simpl in Hi, Hj; try lia.
        -- inversion Hi; subst.
           destruct (lookup_lt_is_Some_2 rest j) as [[kj vj] Hpj].
           { rewrite <- Hlen. by eapply lookup_lt_Some. }
           destruct (Hall j kj vj sj cj sj' Hpj Hj) as (_ & _ & Hl1 & _).
           by rewrite store_prop_length in Hl1.
        -- eapply (Hord i j); [lia|done|done].
    + apply store_prop_prefix; [|done]. by etrans.
Qed.

(** The same for [Array.prototype.map], with no call where the source
    has a hole. *)
Lemma map_items_runs (h0 : heap) callback items index target st st' before :
  (∀ item i, extends_heap (λ _ : unit, callback item i)) →
  st_heap st !! target
  = Some (OArray (before ++ replicate (length items) None)) →
  length before = index →
  h0 `prefix_of` st_heap st → length h0 ≤ target →
  map_items callback items index target st = Ok st' →
  ∃ runs : list (option run),
    length runs = length items
    ∧ st_heap st' !! target
      = Some (OArray (before ++ (fmap (M := option) run_result <$> runs)))
    ∧ (∀ i, items !! i = Some None → runs !! i = Some None)
    ∧ (∀ i item, items !! i = Some (Some item) →
         ∃ s1 c s2,
           runs !! i = Some (Some (s1, c, s2))
           ∧ callback item (index + i) s1 = Ok (c, s2)
           ∧ h0 `prefix_of` st_heap s1
           ∧ length (st_heap st) ≤ length (st_heap s1)
           ∧ length (st_heap s2) ≤ length (st_heap st')
           ∧ ∀ a, length (st_heap s1) ≤ a → a < length (st_heap s2) →
               st_heap st' !! a = st_heap s2 !! a)
    ∧ (∀ i j si ci si' sj cj sj',
         i < j →
         runs !! i = Some (Some (si, ci, si')) →
         runs !! j = Some (Some (sj, cj, sj')) →
         length (st_heap si') ≤ length (st_heap sj)).
Proof.
  intros Hcb. revert index st before.
  induction items as [|[item|] rest IH]; intros index st before Ht Hlen Hpre Hle Hrun;
    simpl in Hrun; subst index.
  - inversion Hrun; subst. exists [].
    split_and!; [done|done|by intros [|i]..].
  - apply bind_Ok_inv in Hrun as ([c st1] & Hcall & Hrun).
    pose proof (Hcb item _ () st c st1 Hcall) as Hext.
    pose proof (prefix_length _ _ Hext) as Hlen1.
    assert (Htlt : target < length (st_heap st)) by (by eapply lookup_lt_Some).
    assert (Ht1 : st_heap st1 !! target
                  = Some (OArray (before ++ replicate (length (Some item :: rest)) None)))
      by (by eapply prefix_lookup_Some).
    apply (store_item_lookup _ (length before) c) in Ht1.
    simpl in Ht1.
    rewrite (insert_app_r_alt before) in Ht1 by done.
    rewrite Nat.sub_diag in Ht1. simpl in Ht1.
    rewrite (cons_middle (Some c)), app_assoc in Ht1.
    pose proof (map_items_frame _ _ _ _ _ _ Hcb Hrun) as [Hlen' Hsame].
    rewrite store_item_length in Hlen', Hsame.
    eapply IH in Hrun as (runs & Hlenr & Hfinal & Hholes & Hall & Hord);
      [|exact Ht1| | |done].
    + exists (Some (st, c, st1) :: runs). split_and!.
      * simpl. by rewrite Hlenr.
      * rewrite Hfinal. csimpl. by rewrite <- app_assoc.
      * intros [|i] Hi; simpl in Hi; [done|]. by apply Hholes.
      * intros [|i] item' Hi; simpl in Hi.
        -- inversion Hi; subst. exists st, c, st1.
           rewrite Nat.add_0_r. split_and!; [done|done|done|done|done|].
           intros a Hge Hlt. rewrite Hsame by lia.
           apply lookup_store_item_ne. lia.
        -- destruct (Hall i item' Hi)
             as (s1 & c' & s2 & Hr & Hb & Hp1 & Hl1 & Hl2 & Hkeep).
           rewrite store_item_length in Hl1.
           exists s1, c', s2. split_and!; [done| |done|lia|done|done].
           by replace (length before + S i) with (S (length before) + i) by lia.
      * intros [|i] [|j] si ci si' sj cj sj' Hij Hi Hj; simpl in Hi, Hj; try lia.
        -- inversion Hi; subst.
           destruct (lookup_lt_is_Some_2 rest j) as [[itemj|] Hpj].
           { rewrite <- Hlenr. by eapply lookup_lt_Some. }
           ++ destruct (Hall j itemj Hpj)
                as (s1 & c' & s2 & Hr & _ & _ & Hl1 & _).
              assert (Heq : Some (Some (sj, cj, sj')) = Some (Some (s1, c', s2)))
                by (etrans; [symmetry; exact Hj|exact Hr]).
              inversion Heq; subst.
              by rewrite store_item_length in Hl1.
           ++ pose proof (Hholes j Hpj) as Hnone.
              assert (Heq : Some (Some (sj, cj, sj')) = Some None)
                by (etrans; [symmetry; exact Hj|exact Hnone]).
              inversion Heq.
        -- eapply (Hord i j); [lia|done|done].
    + rewrite length_app. simpl. lia.
    + apply store_item_prefix; [|done]. by etrans.
  - simpl in Ht.
    rewrite (cons_middle None), app_assoc in Ht.
    eapply IH in Hrun as (runs & Hlenr & Hfinal & Hholes & Hall & Hord);
      [|exact Ht| |done|done].
    + exists (None :: runs). split_and!.
      * simpl. by rewrite Hlenr.
      * rewrite Hfinal. csimpl. by rewrite <- app_assoc.
      * intros [|i] Hi; simpl in Hi; [done|]. by apply Hholes.
      * intros [|i] item' Hi; simpl in Hi; [done|].
        destruct (Hall i item' Hi)
          as (s1 & c' & s2 & Hr & Hb & Hp1 & Hl1 & Hl2 & Hkeep).
        exists s1, c', s2. split_and!; [done| |done|done|done|done].
        by replace (length before + S i) with (S (length before) + i) by lia.
      * intros [|i] [|j] si ci si' sj cj sj' Hij Hi Hj; simpl in Hi, Hj;
          try lia; try done.
        eapply (Hord i j); [lia|done|done].
    + rewrite length_app. simpl. lia.
Qed.

(** *** The states of the loops *)






Lemma elem_of_under_segment segment leaf (found : list (val * list string)) :
  leaf ∈ found → (leaf.1, segment :: leaf.2) ∈ under_segment segment found.
Proof.
  intros Hin. unfold under_segment.
  apply list_elem_of_fmap. exists leaf. by destruct leaf.
Qed.

Lemma elem_of_under_items sub (items : list (option val)) index i item leaf :
  items !! i = Some (Some item) → leaf ∈ sub item →
  (leaf.1, string_of_index (index + i) :: leaf.2) ∈ under_items sub items index.
Proof.
  revert index i. induction items as [|[first|] rest IH]; intros index i Hi Hleaf;
    [done| |].
  - destruct i as [|i]; simpl in Hi; simpl.
    + inversion Hi; subst. rewrite Nat.add_0_r.
      apply elem_of_app. left. by apply elem_of_under_segment.
    + apply elem_of_app. right.
      replace (index + S i) with (S index + i) by lia. by apply IH.
  - destruct i as [|i]; simpl in Hi; [done|]. simpl.
    replace (index + S i) with (S index + i) by lia. by apply IH.
Qed.

Lemma elem_of_under_props sub (props : list (string * val)) i key v leaf :
  props !! i = Some (key, v) → leaf ∈ sub v →
  (leaf.1, key :: leaf.2) ∈ under_props sub props.
Proof.
  revert i. induction props as [|[k w] rest IH]; intros i Hi Hleaf; [done|].
  destruct i as [|i]; simpl in Hi; simpl.
  - inversion Hi; subst. apply elem_of_app. left. by apply elem_of_under_segment.
  - apply elem_of_app. right. by eapply IH.
Qed.

Lemma map_items_mono callback callback' items index target st st' :
  (∀ item i s r, callback item i s = Ok r → callback' item i s = Ok r) →
  map_items callback items index target st = Ok st' →
  map_items callback' items index target st = Ok st'.
Proof.
  intros Hcb. revert index st.
  induction items as [|[item|] rest IH]; intros index st Hrun; simpl in *;
    [done| |by apply IH].
  apply bind_Ok_inv in Hrun as ([mapped st1] & Hcall & Hrun).
  rewrite (Hcb _ _ _ _ Hcall). simpl. by apply IH.
Qed.

Lemma for_in_mono body body' props target st st' :
  (∀ key v s r, body key v s = Ok r → body' key v s = Ok r) →
  for_in body props target st = Ok st' →
  for_in body' props target st = Ok st'.
Proof.
  intros Hbody. revert st.
  induction props as [|[key v] rest IH]; intros st Hrun; simpl in *; [done|].
  apply bind_Ok_inv in Hrun as ([cloned st1] & Hcall & Hrun).
  rewrite (Hbody _ _ _ _ Hcall). simpl. by apply IH.
Qed.

Lemma elem_of_under_items_inv sub (items : list (option val)) index leaf :
  leaf ∈ under_items sub items index →
  ∃ i item below,
    items !! i = Some (Some item) ∧ below ∈ sub item
    ∧ leaf = (below.1, string_of_index (index + i) :: below.2).
Proof.
  revert index. induction items as [|[first|] rest IH]; intros index Hin;
    simpl in Hin.
  - by apply elem_of_nil in Hin.
  - apply elem_of_app in Hin as [Hin|Hin].
    + unfold under_segment in Hin.
      apply list_elem_of_fmap in Hin as ([g route] & -> & Hbelow).
      exists 0, first, (g, route). rewrite Nat.add_0_r. by split_and!.
    + destruct (IH _ Hin) as (i & item & below & Hi & Hbelow & ->).
      exists (S i), item, below. split_and!; [done|done|].
      by replace (index + S i) with (S index + i) by lia.
  - destruct (IH _ Hin) as (i & item & below & Hi & Hbelow & ->).
    exists (S i), item, below. split_and!; [done|done|].
    by replace (index + S i) with (S index + i) by lia.
Qed.

Lemma elem_of_under_props_inv sub (props : list (string * val)) leaf :
  leaf ∈ under_props sub props →
  ∃ i key v below,
    props !! i = Some (key, v) ∧ below ∈ sub v
    ∧ leaf = (below.1, key :: below.2).
Proof.
  induction props as [|[k w] rest IH]; intros Hin; simpl in Hin.
  - by apply elem_of_nil in Hin.
  - apply elem_of_app in Hin as [Hin|Hin].
    + unfold under_segment in Hin.
      apply list_elem_of_fmap in Hin as ([g route] & -> & Hbelow).
      by exists 0, k, w, (g, route).
    + destruct (IH Hin) as (i & key & v & below & Hi & Hbelow & ->).
      by exists (S i), key, v, below.
Qed.

Lemma get_child_item (items : list (option val)) i item :
  items !! i = Some (Some item) →
  get_child (OArray items) (string_of_index i) = Some item
  ∧ get_child (OFileList items) (string_of_index i) = Some item.
Proof.
  intros Hi. unfold get_child. cbn [slot_of obj_children].
  rewrite index_of_string_of_index. simpl.
  rewrite decide_True by done. simpl. by rewrite Hi.
Qed.

Lemma get_child_prop (props : list (string * val)) i key v :
  NoDup props.*1 → props !! i = Some (key, v) →
  get_child (OPlain props) key = Some v.
Proof.
  intros Hnd Hi. unfold get_child. cbn [slot_of obj_children].
  assert (Hkey : props.*1 !! i = Some key) by (by rewrite list_lookup_fmap, Hi).
  assert (Hfind : list_find (λ k, k = key) props.*1 = Some (i, key)).
  { apply list_find_Some. split_and!; [done|done|].
    intros j k Hj Hlt ->. pose proof (NoDup_lookup _ _ _ _ Hnd Hj Hkey). lia. }
  rewrite Hfind. simpl. by rewrite !list_lookup_fmap, Hi.
Qed.

Section extract_facts.

Implicit Types (fl : bool) (P : heap → val → bool).

(** The heap a call of [recurse] returns extends the heap it started
    from: every object that existed keeps its address and its contents. *)
Lemma recurse_prefix fl P fuel value path recursed st clone st' :
  recurse fl P fuel value path recursed st = Ok (clone, st') →
  st_heap st `prefix_of` st_heap st'.
Proof.
  revert value path recursed st clone st'.
  induction fuel as [|fuel IH]; intros value path recursed st clone st' Hrun;
    [done|].
  simpl in Hrun.
  destruct (P (st_heap st) value).
  { by inversion Hrun; subst. }
  destruct value as [| | | | |a]; try by (inversion Hrun; subst).
  destruct (st_heap st !! a) as [[items|items|props|class props]|];
    try by (inversion Hrun; subst).
  - apply bind_Ok_inv in Hrun as (seen & _ & Hrun).
    destruct seen; [by inversion Hrun; subst|].
    apply bind_Ok_inv in Hrun as (st2 & Hloop & Hrun).
    inversion Hrun; subst; clear Hrun.
    eapply map_items_prefix; [|exact Hloop| |done].
    + intros item i [] s r s' Hcall. by eapply IH.
    + by apply prefix_app_r.
  - destruct fl; [|by inversion Hrun; subst].
    apply bind_Ok_inv in Hrun as (st2 & Hloop & Hrun).
    inversion Hrun; subst; clear Hrun.
    eapply map_items_prefix; [|exact Hloop| |done].
    + intros item i [] s r s' Hcall. by eapply IH.
    + by apply prefix_app_r.
  - apply bind_Ok_inv in Hrun as (seen & _ & Hrun).
    destruct seen; [by inversion Hrun; subst|].
    apply bind_Ok_inv in Hrun as (st2 & Hloop & Hrun).
    inversion Hrun; subst; clear Hrun.
    eapply for_in_prefix; [|exact Hloop| |done].
    + intros key v s r s' Hcall. by eapply IH.
    + by apply prefix_app_r.
Qed.

(** The files a call of [recurse] records are the leaves of the value,
    in pre-order, each under the path its route gives. *)
Lemma recurse_files fl P (h0 : heap) fuel value path recursed st clone st' :
  wf_heap h0 → stable P →
  h0 `prefix_of` st_heap st → val_in h0 value →
  recurse fl P fuel value path recursed st = Ok (clone, st') →
  st_files st'
  = record_all path (leaf_routes fl P fuel h0 value recursed) (st_files st).
Proof.
  intros Hwf Hstable.
  revert value path recursed st clone st'.
  induction fuel as [|fuel IH]; intros value path recursed st clone st' Hpre Hin Hrun;
    [done|].
  simpl in Hrun. simpl.
  rewrite (Hstable h0 (st_heap st) value Hpre Hin) in Hrun.
  destruct (P h0 value).
  { by inversion Hrun; subst. }
  destruct value as [| | | | |a]; try by (inversion Hrun; subst).
  simpl in Hin. rewrite (lookup_prefix_in _ _ _ Hpre Hin) in Hrun.
  destruct (h0 !! a) as [[items|items|props|class props]|] eqn:Ha;
    try by (inversion Hrun; subst).
  - apply bind_Ok_inv in Hrun as (seen & Hseen & Hrun).
    destruct recursed as [s|]; [|done].
    simpl in Hseen. inversion Hseen; subst; clear Hseen. simpl.
    destruct (bool_decide (a ∈ s)); [by inversion Hrun; subst|].
    apply bind_Ok_inv in Hrun as (st2 & Hloop & Hrun).
    inversion Hrun; subst; clear Hrun.
    eapply (map_items_files h0) in Hloop as [_ Hfiles]; [exact Hfiles| | | |].
    + intros item i s0 r s' Hitem Hpre0 Hcall. split.
      * etrans; [exact Hpre0|]. by eapply recurse_prefix.
      * by eapply IH.
    + by apply (wf_heap_lookup _ _ _ Hwf Ha).
    + by apply prefix_app_r.
    + simpl. by apply prefix_length.
  - destruct fl; [|by inversion Hrun; subst].
    apply bind_Ok_inv in Hrun as (st2 & Hloop & Hrun).
    inversion Hrun; subst; clear Hrun.
    eapply (map_items_files h0) in Hloop as [_ Hfiles]; [exact Hfiles| | | |].
    + intros item i s0 r s' Hitem Hpre0 Hcall. split.
      * etrans; [exact Hpre0|]. by eapply recurse_prefix.
      * by eapply IH.
    + by apply (wf_heap_lookup _ _ _ Hwf Ha).
    + by apply prefix_app_r.
    + simpl. by apply prefix_length.
  - apply bind_Ok_inv in Hrun as (seen & Hseen & Hrun).
    destruct recursed as [s|]; [|done].
    simpl in Hseen. inversion Hseen; subst; clear Hseen. simpl.
    destruct (bool_decide (a ∈ s)); [by inversion Hrun; subst|].
    apply bind_Ok_inv in Hrun as (st2 & Hloop & Hrun).
    inversion Hrun; subst; clear Hrun.
    eapply (for_in_files h0) in Hloop as [_ Hfiles]; [exact Hfiles| | | |].
    + intros key v s0 r s' Hv Hpre0 Hcall. split.
      * etrans; [exact Hpre0|]. by eapply recurse_prefix.
      * by eapply IH.
    + by apply (wf_heap_lookup _ _ _ Hwf Ha).
    + by apply prefix_app_r.
    + simpl. by apply prefix_length.
Qed.

(** A value that is extractable, or is no container, is dealt with by
    one call, whatever the set of visited containers. *)
Lemma recurse_flat_entry fl P (h0 : heap) fuel value path recursed st :
  stable P → h0 `prefix_of` st_heap st → val_in h0 value →
  P h0 value || negb (is_container h0 value) = true →
  ∃ clone st', recurse fl P (S fuel) value path recursed st = Ok (clone, st').
Proof.
  intros Hstable Hpre Hin Hflat. simpl.
  rewrite (Hstable h0 (st_heap st) value Hpre Hin).
  destruct (P h0 value); [by eauto|].
  destruct value as [| | | | |a]; try by eauto.
  simpl in Hin, Hflat. rewrite (lookup_prefix_in _ _ _ Hpre Hin).
  destruct (h0 !! a) as [[items|items|props|class props]|]; try done; by eauto.
Qed.


(** Entering a container, seen one child at a time. *)
Lemma recurse_enter_inv fl P (h0 : heap) fuel a o path (s : gset nat) st clone st' :
  wf_heap h0 → stable P → h0 `prefix_of` st_heap st →
  h0 !! a = Some o → clonable o = true → own_proto_free o →
  P h0 (VRef a) = false → a ∉ s →
  recurse fl P fuel (VRef a) path (Some s) st = Ok (clone, st') →
  ∃ fuel' o' (runs : list (option run)),
    fuel = S fuel'
    ∧ clone = VRef (length (st_heap st))
    ∧ length (st_heap st) < length (st_heap st')
    ∧ st_heap st' !! length (st_heap st) = Some o'
    ∧ same_shape o o'
    ∧ (∀ segment, slot_of o' segment = slot_of o segment)
    ∧ (∀ segment i child,
         slot_of o segment = Some i → obj_children o !! i = Some (Some child) →
         ∃ s1 c s2,
           runs !! i = Some (Some (s1, c, s2))
           ∧ obj_children o' !! i = Some (Some c)
           ∧ recurse fl P fuel' child (child_path path segment)
               (Some ({[a]} ∪ s)) s1
             = Ok (c, s2)
           ∧ h0 `prefix_of` st_heap s1
           ∧ length (st_heap st) < length (st_heap s1)
           ∧ length (st_heap s2) ≤ length (st_heap st')
           ∧ ∀ b, length (st_heap s1) ≤ b → b < length (st_heap s2) →
               st_heap st' !! b = st_heap s2 !! b)
    ∧ (∀ i j si ci si' sj cj sj',
         i < j →
         runs !! i = Some (Some (si, ci, si')) →
         runs !! j = Some (Some (sj, cj, sj')) →
         length (st_heap si') ≤ length (st_heap sj)).
Proof.
  intros Hwf Hstable Hpre Ha Hclonable Hproto Hfile Hnew Hrun.
  assert (Hlt : a < length h0) by (by eapply lookup_lt_Some).
  pose proof (wf_heap_lookup _ _ _ Hwf Ha) as [_ Hnd].
  destruct fuel as [|fuel]; [done|]. simpl in Hrun.
  rewrite (Hstable h0 (st_heap st) (VRef a) Hpre Hlt), Hfile in Hrun.
  rewrite (prefix_lookup_Some _ _ _ _ Ha Hpre) in Hrun.
  destruct o as [items|items|props|class props]; try done; simpl in Hrun.
  - rewrite bool_decide_eq_false_2 in Hrun by done.
    apply bind_Ok_inv in Hrun as (st2 & Hloop & Hrun).
    inversion Hrun; subst; clear Hrun.
    eapply (map_items_runs h0 _ _ _ _ _ _ []) in Hloop
      as (runs & Hlen & Hfinal & Hholes & Hall & Hord); simpl.
    + exists fuel, (OArray (fmap (M := option) run_result <$> runs)), runs.
      split_and!; [done|done| |done| |done| |done].
      * by eapply lookup_lt_Some.
      * simpl. by rewrite length_fmap.
      * intros segment i child Hslot Hchild. simpl in Hslot, Hchild.
        destruct (index_of_string segment) as [i'|]; [|done]. simpl in Hslot.
        destruct (decide (string_of_index i' = segment)) as [<-|]; [|done].
        inversion Hslot; subst; clear Hslot.
        destruct (Hall i child Hchild)
          as (s1 & c & s2 & Hr & Hcall & Hp1 & Hl1 & Hl2 & Hkeep).
        exists s1, c, s2. split_and!; [done| |done|done| |done|done].
        -- cbn [obj_children]. by rewrite list_lookup_fmap, Hr.
        -- simpl in Hl1. rewrite length_app in Hl1. simpl in Hl1. lia.
    + intros item i [] s0 r s' Hcall. by eapply recurse_prefix.
    + by rewrite lookup_app_r, Nat.sub_diag.
    + done.
    + by apply prefix_app_r.
    + by apply prefix_length.
  - rewrite bool_decide_eq_false_2 in Hrun by done.
    apply bind_Ok_inv in Hrun as (st2 & Hloop & Hrun).
    inversion Hrun; subst; clear Hrun.
    simpl in Hnd.
    eapply (for_in_runs h0 _ _ _ _ _ []) in Hloop
      as (runs & Hlen & Hfinal & Hall & Hord); simpl.
    + specialize (Hfinal Hproto).
      assert (Hkeys : (zip props.*1 (run_result <$> runs)).*1 = props.*1).
      { apply fst_zip. rewrite !length_fmap. lia. }
      assert (Hvals : (zip props.*1 (run_result <$> runs)).*2 = run_result <$> runs).
      { apply snd_zip. rewrite !length_fmap. lia. }
      exists fuel, (OPlain (zip props.*1 (run_result <$> runs))), (Some <$> runs).
      split_and!; [done|done| |done|done| | |].
      * by eapply lookup_lt_Some.
      * intros segment. cbn [slot_of]. by rewrite Hkeys.
      * intros segment i child Hslot Hchild.
        cbn [slot_of obj_children] in Hslot, Hchild.
        apply fmap_Some in Hslot as ([i' key] & Hfind & ->).
        apply list_find_Some in Hfind as (Hkey & -> & _). cbn [fst] in *.
        rewrite list_lookup_fmap in Hkey.
        rewrite !list_lookup_fmap in Hchild.
        destruct (props !! i') as [[k v]|] eqn:Hp; [|done].
        simpl in Hkey, Hchild. inversion Hkey; inversion Hchild; subst.
        destruct (lookup_lt_is_Some_2 runs i') as [[[s1 c] s2] Hr].
        { rewrite Hlen. by eapply lookup_lt_Some. }
        destruct (Hall i' segment child s1 c s2 Hp Hr)
          as (Hcall & Hp1 & Hl1 & Hl2 & Hkeep).
        exists s1, c, s2. split_and!; [| |done|done| |done|done].
        -- by rewrite list_lookup_fmap, Hr.
        -- cbn [obj_children]. rewrite Hvals. by rewrite !list_lookup_fmap, Hr.
        -- simpl in Hl1. rewrite length_app in Hl1. simpl in Hl1. lia.
      * intros i j si ci si' sj cj sj' Hij Hi Hj.
        rewrite list_lookup_fmap in Hi. rewrite list_lookup_fmap in Hj.
        apply fmap_Some in Hi as (ri & Hi & [= Hri]).
        apply fmap_Some in Hj as (rj & Hj & [= Hrj]).
        subst ri rj. by eapply (Hord i j).
    + intros key v s0 r s' Hcall. by eapply recurse_prefix.
    + done.
    + by rewrite lookup_app_r, Nat.sub_diag.
    + by apply prefix_app_r.
    + by apply prefix_length.
Qed.

Lemma enters_inv P (h : heap) (s : gset nat) v route x :
  enters P h s v route x = true →
  ∃ a o,
    v = VRef a ∧ P h (VRef a) = false ∧ (a ∉ s) ∧ (h !! a = Some o)
    ∧ clonable o = true
    ∧ (match route with
       | [] => x = a
       | segment :: rest =>
           ∃ child, get_child o segment = Some child
                    ∧ enters P h ({[a]} ∪ s) child rest x = true
       end).
Proof.
  intros Hent.
  destruct route as [|segment rest]; simpl in Hent;
    apply andb_true_iff in Hent as [Hfile Hent];
    apply negb_true_iff in Hfile;
    (destruct v as [| | | | |a]; [done..|]);
    apply andb_true_iff in Hent as [Hnew Hent];
    apply bool_decide_eq_true in Hnew;
    (destruct (h !! a) as [o|] eqn:Ha; [|done]);
    apply andb_true_iff in Hent as [Hclonable Hent];
    exists a, o; split_and!; try done.
  - by apply bool_decide_eq_true in Hent.
  - destruct (get_child o segment) as [child|]; [|done]. by exists child.
Qed.

Lemma get_child_inv o segment child :
  get_child o segment = Some child →
  ∃ i, slot_of o segment = Some i ∧ obj_children o !! i = Some (Some child).
Proof.
  unfold get_child. intros Hget.
  destruct (slot_of o segment) as [i|]; [|done]. simpl in Hget.
  exists i. split; [done|].
  destruct (obj_children o !! i) as [[c|]|]; simpl in Hget; by simplify_eq.
Qed.

Lemma get_child_slot o segment i child :
  slot_of o segment = Some i → obj_children o !! i = Some (Some child) →
  get_child o segment = Some child.
Proof. intros Hslot Hchild. unfold get_child. by rewrite Hslot; simpl; rewrite Hchild. Qed.

Lemma slot_of_inj o segment1 segment2 i :
  slot_of o segment1 = Some i → slot_of o segment2 = Some i →
  segment1 = segment2.
Proof.
  assert (Hkeys : ∀ keys : list string,
             fst <$> list_find (λ key, key = segment1) keys = Some i →
             fst <$> list_find (λ key, key = segment2) keys = Some i →
             segment1 = segment2).
  { intros keys ([i1 k1] & (Hk1 & -> & _)%list_find_Some & ->)%fmap_Some
                ([i2 k2] & (Hk2 & -> & _)%list_find_Some & Heq)%fmap_Some.
    simpl in *. subst. congruence. }
  assert (Hidx : ∀ seg,
             (j ← index_of_string seg;
              if decide (string_of_index j = seg) then Some j else None) = Some i →
             seg = string_of_index i).
  { intros seg Hseg. destruct (index_of_string seg) as [j|]; [|done].
    simpl in Hseg. destruct (decide (string_of_index j = seg)); by simplify_eq. }
  destruct o as [items|items|props|class props]; cbn [slot_of]; intros H1 H2.
  - by rewrite (Hidx _ H1), (Hidx _ H2).
  - by rewrite (Hidx _ H1), (Hidx _ H2).
  - by eapply Hkeys.
  - by eapply Hkeys.
Qed.

Lemma child_val_in (h : heap) a o i child :
  wf_heap h → h !! a = Some o → obj_children o !! i = Some (Some child) →
  val_in h child.
Proof.
  intros Hwf Ha Hchild.
  pose proof (wf_heap_lookup _ _ _ Hwf Ha) as [Hvals _].
  eapply (proj1 (Forall_forall _ _)) in Hvals; [exact Hvals|].
  destruct o as [items|items|props|class props]; cbn [obj_children obj_vals] in *.
  - apply list_elem_of_omap. exists (Some child). split; [|done].
    by eapply list_elem_of_lookup_2.
  - apply list_elem_of_omap. exists (Some child). split; [|done].
    by eapply list_elem_of_lookup_2.
  - rewrite list_lookup_fmap in Hchild.
    destruct (props.*2 !! i) as [w|] eqn:Hw; simplify_eq/=.
    by eapply list_elem_of_lookup_2.
  - rewrite list_lookup_fmap in Hchild.
    destruct (props.*2 !! i) as [w|] eqn:Hw; simplify_eq/=.
    by eapply list_elem_of_lookup_2.
Qed.

(** A position that is entered holds, in the clone, a new object of the
    shape of the container at that position of the input. *)
Lemma follow_entered fl P (h0 : heap) :
  wf_heap h0 → proto_free h0 → stable P →
  ∀ route fuel v path (s : gset nat) st clone st' x (H : heap),
    h0 `prefix_of` st_heap st → val_in h0 v →
    recurse fl P fuel v path (Some s) st = Ok (clone, st') →
    enters P h0 s v route x = true →
    agrees (length (st_heap st)) (length (st_heap st')) H (st_heap st') →
    ∃ c ox oc,
      follow H clone route = Some (VRef c)
      ∧ length (st_heap st) ≤ c ∧ c < length (st_heap st')
      ∧ (route = [] → c = length (st_heap st))
      ∧ (route ≠ [] → length (st_heap st) < c)
      ∧ h0 !! x = Some ox ∧ H !! c = Some oc ∧ same_shape ox oc.
Proof.
  intros Hwf Hproto Hstable.
  induction route as [|segment rest IH];
    intros fuel v path s st clone st' x H Hpre Hin Hrun Hent Hagree;
    apply enters_inv in Hent as (a & o & -> & Hfile & Hnew & Ha & Hclonable & Hroute);
    destruct (recurse_enter_inv fl P h0 fuel a o path s st clone st')
      as (fuel' & o' & runs & -> & -> & Hgrow & Ho' & Hshape & Hslots & Hall & Hord);
    try done; try (by eapply proto_free_lookup).
  - subst x. exists (length (st_heap st)), o, o'.
    split_and!; [done|done|done|done|done|done| |done].
    rewrite Hagree by lia. done.
  - destruct Hroute as (child & Hget & Hent).
    apply get_child_inv in Hget as (i & Hslot & Hchild).
    destruct (Hall segment i child Hslot Hchild)
      as (s1 & c & s2 & Hr & Hc & Hcall & Hp1 & Hl1 & Hl2 & Hkeep).
    destruct (IH fuel' child (child_path path segment) ({[a]} ∪ s) s1 c s2 x H)
      as (cx & ox & oc & Hfollow & Hge & Hlt & _ & _ & Hx & Hcx & Hsame);
      [done|by eapply child_val_in|done|done| |].
    { intros b Hb1 Hb2. rewrite Hagree by lia. by apply Hkeep. }
    exists cx, ox, oc. split_and!; [|lia|lia|done|lia|done|done|done].
    cbn [follow]. rewrite Hagree by lia. rewrite Ho'. simpl.
    rewrite (get_child_slot o' segment i c); [done| |done].
    by rewrite Hslots.
Qed.

(** Two different positions that are entered hold two different new
    objects in the clone. *)
Lemma follow_entered_distinct fl P (h0 : heap) :
  wf_heap h0 → proto_free h0 → stable P →
  ∀ route1 route2 fuel v path (s : gset nat) st clone st' x1 x2 (H : heap) c1 c2,
    h0 `prefix_of` st_heap st → val_in h0 v →
    recurse fl P fuel v path (Some s) st = Ok (clone, st') →
    enters P h0 s v route1 x1 = true → enters P h0 s v route2 x2 = true →
    agrees (length (st_heap st)) (length (st_heap st')) H (st_heap st') →
    follow H clone route1 = Some (VRef c1) →
    follow H clone route2 = Some (VRef c2) →
    route1 ≠ route2 → c1 ≠ c2.
Proof.
  intros Hwf Hproto Hstable.
  induction route1 as [|segment1 rest1 IH];
    intros [|segment2 rest2] fuel v path s st clone st' x1 x2 H c1 c2
      Hpre Hin Hrun Hent1 Hent2 Hagree Hf1 Hf2 Hne; [done| | |].
  - destruct (follow_entered fl P h0 Hwf Hproto Hstable [] fuel v path s st clone st'
                x1 H) as (d1 & _ & _ & Hd1 & _ & _ & Heq1 & _); [done..|].
    destruct (follow_entered fl P h0 Hwf Hproto Hstable (segment2 :: rest2) fuel v path
                s st clone st' x2 H) as (d2 & _ & _ & Hd2 & _ & _ & _ & Hgt2 & _);
      [done..|].
    rewrite Hf1 in Hd1. rewrite Hf2 in Hd2. simplify_eq.
    specialize (Heq1 eq_refl). specialize (Hgt2 ltac:(done)). lia.
  - destruct (follow_entered fl P h0 Hwf Hproto Hstable [] fuel v path s st clone st'
                x2 H) as (d2 & _ & _ & Hd2 & _ & _ & Heq2 & _); [done..|].
    destruct (follow_entered fl P h0 Hwf Hproto Hstable (segment1 :: rest1) fuel v path
                s st clone st' x1 H) as (d1 & _ & _ & Hd1 & _ & _ & _ & Hgt1 & _);
      [done..|].
    rewrite Hf1 in Hd1. rewrite Hf2 in Hd2. simplify_eq.
    specialize (Heq2 eq_refl). specialize (Hgt1 ltac:(done)). lia.
  - apply enters_inv in Hent1
      as (a & o & -> & Hfile & Hnew & Ha & Hclonable & child1 & Hget1 & Hent1).
    apply enters_inv in Hent2
      as (a' & o2 & [= <-] & _ & _ & Ha' & _ & child2 & Hget2 & Hent2).
    rewrite Ha in Ha'. inversion Ha'; subst o2; clear Ha'.
    destruct (recurse_enter_inv fl P h0 fuel a o path s st clone st')
      as (fuel' & o' & runs & -> & -> & Hgrow & Ho' & Hshape & Hslots & Hall & Hord);
      try done; try (by eapply proto_free_lookup).
    apply get_child_inv in Hget1 as (i1 & Hslot1 & Hchild1).
    apply get_child_inv in Hget2 as (i2 & Hslot2 & Hchild2).
    destruct (Hall segment1 i1 child1 Hslot1 Hchild1)
      as (s1 & d1 & s1' & Hr1 & Hd1 & Hcall1 & Hp1 & Hl1 & Hl1' & Hkeep1).
    destruct (Hall segment2 i2 child2 Hslot2 Hchild2)
      as (s2 & d2 & s2' & Hr2 & Hd2 & Hcall2 & Hp2 & Hl2 & Hl2' & Hkeep2).
    assert (Hagree1 : agrees (length (st_heap s1)) (length (st_heap s1')) H (st_heap s1')).
    { intros b Hb1 Hb2. rewrite Hagree by lia. by apply Hkeep1. }
    assert (Hagree2 : agrees (length (st_heap s2)) (length (st_heap s2')) H (st_heap s2')).
    { intros b Hb1 Hb2. rewrite Hagree by lia. by apply Hkeep2. }
    cbn [follow] in Hf1, Hf2. rewrite Hagree, Ho' in Hf1, Hf2 by lia.
    simpl in Hf1, Hf2.
    rewrite (get_child_slot o' segment1 i1 d1) in Hf1; [| by rewrite Hslots |done].
    rewrite (get_child_slot o' segment2 i2 d2) in Hf2; [| by rewrite Hslots |done].
    simpl in Hf1, Hf2.
    assert (Hin1 : val_in h0 child1) by (by eapply child_val_in).
    assert (Hin2 : val_in h0 child2) by (by eapply child_val_in).
    destruct (decide (segment1 = segment2)) as [<-|Hseg].
    + rewrite Hslot1 in Hslot2. inversion Hslot2; subst i2; clear Hslot2.
      rewrite Hchild1 in Hchild2. inversion Hchild2; subst child2; clear Hchild2.
      rewrite Hr1 in Hr2. inversion Hr2; subst; clear Hr2.
      eapply (IH rest2 fuel' child1 (child_path path segment1) ({[a]} ∪ s)
                s2 d2 s2' x1 x2 H c1 c2); try done.
      congruence.
    + assert (Hi : i1 ≠ i2).
      { intros <-. apply Hseg. by eapply slot_of_inj. }
      destruct (follow_entered fl P h0 Hwf Hproto Hstable rest1 fuel' child1
                  (child_path path segment1) ({[a]} ∪ s) s1 d1 s1' x1 H)
        as (e1 & _ & _ & He1 & Hge1 & Hlt1 & _); [done..|].
      destruct (follow_entered fl P h0 Hwf Hproto Hstable rest2 fuel' child2
                  (child_path path segment2) ({[a]} ∪ s) s2 d2 s2' x2 H)
        as (e2 & _ & _ & He2 & Hge2 & Hlt2 & _); [done..|].
      rewrite Hf1 in He1. rewrite Hf2 in He2. simplify_eq.
      destruct (decide (i1 < i2)) as [Hlt|Hge].
      * pose proof (Hord i1 i2 _ _ _ _ _ _ Hlt Hr1 Hr2). lia.
      * assert (Hlt : i2 < i1) by lia.
        pose proof (Hord i2 i1 _ _ _ _ _ _ Hlt Hr2 Hr1). lia.
Qed.

(** The leaves found below a container that is entered. *)
Lemma leaf_routes_enter fl P (h : heap) fuel a o segment i child (s : gset nat) leaf :
  h !! a = Some o → clonable o = true → P h (VRef a) = false → a ∉ s →
  slot_of o segment = Some i → obj_children o !! i = Some (Some child) →
  leaf ∈ leaf_routes fl P fuel h child (Some ({[a]} ∪ s)) →
  (leaf.1, segment :: leaf.2) ∈ leaf_routes fl P (S fuel) h (VRef a) (Some s).
Proof.
  intros Ha Hclonable Hfile Hnew Hslot Hchild Hleaf.
  cbn [leaf_routes]. rewrite Hfile, Ha.
  destruct o as [items|items|props|class props]; try done;
    cbn [default]; rewrite bool_decide_eq_false_2 by done;
    cbn [slot_of obj_children] in Hslot, Hchild.
  - destruct (index_of_string segment) as [i'|]; [|done]. simpl in Hslot.
    destruct (decide (string_of_index i' = segment)) as [<-|]; [|done].
    inversion Hslot; subst; clear Hslot.
    by apply (elem_of_under_items _ items 0 i child leaf).
  - apply fmap_Some in Hslot as ([i' key] & Hfind & ->).
    apply list_find_Some in Hfind as (Hkey & -> & _). cbn [fst] in *.
    rewrite list_lookup_fmap in Hkey. rewrite !list_lookup_fmap in Hchild.
    destruct (props !! i') as [[k v]|] eqn:Hp; [|done].
    simpl in Hkey, Hchild. inversion Hkey; inversion Hchild; subst.
    by eapply elem_of_under_props.
Qed.

(** An extractable child of a container that is entered: the clone has
    [null] in its place, and the child is among the leaves, with the
    route to the container followed by the segment of the child. *)
Lemma follow_entered_leaf fl P (h0 : heap) :
  wf_heap h0 → proto_free h0 → stable P →
  ∀ route fuel v path (s : gset nat) st clone st' x ox segment f (H : heap),
    h0 `prefix_of` st_heap st → val_in h0 v →
    recurse fl P fuel v path (Some s) st = Ok (clone, st') →
    enters P h0 s v route x = true →
    h0 !! x = Some ox → get_child ox segment = Some f → P h0 f = true →
    agrees (length (st_heap st)) (length (st_heap st')) H (st_heap st') →
    follow H clone (route ++ [segment]) = Some VNull
    ∧ (f, route ++ [segment]) ∈ leaf_routes fl P fuel h0 v (Some s).
Proof.
  intros Hwf Hproto Hstable.
  induction route as [|segment0 rest IH];
    intros fuel v path s st clone st' x ox segment f H
      Hpre Hin Hrun Hent Hx Hget Hfile Hagree;
    apply enters_inv in Hent as (a & o & -> & Hfa & Hnew & Ha & Hclonable & Hroute);
    destruct (recurse_enter_inv fl P h0 fuel a o path s st clone st')
      as (fuel' & o' & runs & -> & -> & Hgrow & Ho' & Hshape & Hslots & Hall & Hord);
    try done; try (by eapply proto_free_lookup).
  - subst x. rewrite Ha in Hx. inversion Hx; subst ox; clear Hx.
    apply get_child_inv in Hget as (i & Hslot & Hchild).
    destruct (Hall segment i f Hslot Hchild)
      as (s1 & c & s2 & Hr & Hc & Hcall & Hp1 & Hl1 & Hl2 & Hkeep).
    assert (Hinf : val_in h0 f) by (by eapply child_val_in).
    destruct fuel' as [|fuel']; [done|].
    assert (Hleaf : (f, []) ∈ leaf_routes fl P (S fuel') h0 f (Some ({[a]} ∪ s))).
    { cbn [leaf_routes]. rewrite Hfile. by apply list_elem_of_singleton. }
    cbn [recurse] in Hcall.
    rewrite (Hstable h0 (st_heap s1) f Hp1 Hinf), Hfile in Hcall.
    inversion Hcall; subst c; clear Hcall.
    split.
    + cbn [app follow]. rewrite Hagree by lia. rewrite Ho'. simpl.
      rewrite (get_child_slot o' segment i VNull); [done| |done].
      by rewrite Hslots.
    + by apply (leaf_routes_enter fl P h0 (S fuel') a o segment i f s (f, [])).
  - destruct Hroute as (child & Hget0 & Hent).
    apply get_child_inv in Hget0 as (i & Hslot & Hchild).
    destruct (Hall segment0 i child Hslot Hchild)
      as (s1 & c & s2 & Hr & Hc & Hcall & Hp1 & Hl1 & Hl2 & Hkeep).
    destruct (IH fuel' child (child_path path segment0) ({[a]} ∪ s) s1 c s2
                x ox segment f H) as [Hfollow Hleaf];
      [done|exact (child_val_in h0 a o i child Hwf Ha Hchild)
       |done|done|done|done|done| |].
    { intros b Hb1 Hb2. rewrite Hagree by lia. by apply Hkeep. }
    split.
    + cbn [app follow]. rewrite Hagree by lia. rewrite Ho'. simpl.
      rewrite (get_child_slot o' segment0 i c); [done| |done].
      by rewrite Hslots.
    + by apply (leaf_routes_enter fl P h0 fuel' a o segment0 i child s
                  (f, rest ++ [segment])).
Qed.

(** A result does not depend on the depth budget: a larger budget gives
    the same result. *)
Lemma recurse_fuel_mono fl P fuel fuel' value path recursed st r :
  fuel ≤ fuel' →
  recurse fl P fuel value path recursed st = Ok r →
  recurse fl P fuel' value path recursed st = Ok r.
Proof.
  revert fuel' value path recursed st r.
  induction fuel as [|fuel IH]; intros fuel' value path recursed st r Hle Hrun;
    [done|].
  destruct fuel' as [|fuel']; [lia|].
  simpl in Hrun. simpl.
  destruct (P (st_heap st) value); [done|].
  destruct value as [| | | | |a]; try done.
  destruct (st_heap st !! a) as [[items|items|props|class props]|]; try done.
  - apply bind_Ok_inv in Hrun as (seen & -> & Hrun). simpl.
    destruct seen; [done|].
    apply bind_Ok_inv in Hrun as (st2 & Hloop & Hrun).
    eapply map_items_mono in Hloop as ->; [done|].
    intros item i s0 r0 Hcall. apply IH; [lia|done].
  - destruct fl; [|done].
    apply bind_Ok_inv in Hrun as (st2 & Hloop & Hrun).
    eapply map_items_mono in Hloop as ->; [done|].
    intros item i s0 r0 Hcall. apply IH; [lia|done].
  - apply bind_Ok_inv in Hrun as (seen & -> & Hrun). simpl.
    destruct seen; [done|].
    apply bind_Ok_inv in Hrun as (st2 & Hloop & Hrun).
    eapply for_in_mono in Hloop as ->; [done|].
    intros key v s0 r0 Hcall. apply IH; [lia|done].
Qed.

(** The routes of the leaves are positions of the input: following the
    route of a leaf from the value leads to that leaf, and the leaf is
    extractable. *)
Lemma leaf_routes_sound fl P (h : heap) :
  wf_heap h →
  ∀ fuel v recursed f route,
    (f, route) ∈ leaf_routes fl P fuel h v recursed →
    follow h v route = Some f ∧ P h f = true.
Proof.
  intros Hwf. induction fuel as [|fuel IH]; intros v recursed f route Hin;
    simpl in Hin; [by apply elem_of_nil in Hin|].
  destruct (P h v) eqn:Hfile.
  { apply list_elem_of_singleton in Hin. by simplify_eq. }
  destruct v as [| | | | |a]; try by apply elem_of_nil in Hin.
  destruct (h !! a) as [[items|items|props|class props]|] eqn:Ha;
    try by apply elem_of_nil in Hin.
  - destruct (bool_decide (a ∈ default ∅ recursed));
      [by apply elem_of_nil in Hin|].
    apply elem_of_under_items_inv in Hin
      as (i & item & [g below] & Hi & Hbelow & [= -> ->]).
    destruct (IH _ _ _ _ Hbelow) as [Hfollow Hg].
    split; [|done]. cbn [follow]. rewrite Ha. simpl.
    by rewrite (proj1 (get_child_item items i item Hi)).
  - destruct fl; [|by apply elem_of_nil in Hin].
    apply elem_of_under_items_inv in Hin
      as (i & item & [g below] & Hi & Hbelow & [= -> ->]).
    destruct (IH _ _ _ _ Hbelow) as [Hfollow Hg].
    split; [|done]. cbn [follow]. rewrite Ha. simpl.
    by rewrite (proj2 (get_child_item items i item Hi)).
  - destruct (bool_decide (a ∈ default ∅ recursed));
      [by apply elem_of_nil in Hin|].
    apply elem_of_under_props_inv in Hin
      as (i & key & v & [g below] & Hi & Hbelow & [= -> ->]).
    destruct (IH _ _ _ _ Hbelow) as [Hfollow Hg].
    pose proof (wf_heap_lookup _ _ _ Hwf Ha) as [_ Hnd].
    split; [|done]. cbn [follow]. rewrite Ha. simpl.
    by rewrite (get_child_prop props i key v Hnd Hi).
Qed.

End extract_facts.


(** ** The default predicate and the test inputs are well-formed *)

Lemma defaultIsExtractableFile_stable : stable defaultIsExtractableFile.
Proof.
  intros h h' [| | | | |a] Hpre Hin; try done.
  simpl in *. by rewrite (lookup_prefix_in _ _ _ Hpre Hin).
Qed.

Lemma wf_heap_decide (h : heap) : bool_decide (wf_heap h) = true → wf_heap h.
Proof. apply bool_decide_eq_true_1. Qed.

Lemma proto_free_decide (h : heap) :
  bool_decide (proto_free h) = true → proto_free h.
Proof. apply bool_decide_eq_true_1. Qed.

(** ** Extractable values are leaves *)

Lemma addFile_new file path (files : file_map) :
  file ∉ files.*1 → addFile file path files = files ++ [(file, [path])].
Proof.
  intros Hnew. unfold addFile.
  replace (files_get file files) with (@None (list string)); [done|].
  induction files as [|[k ps] rest IH]; [done|]. csimpl in Hnew. simpl.
  apply not_elem_of_cons in Hnew as [Hne Hnew].
  rewrite decide_False by done. by apply IH.
Qed.

Lemma addFile_known file path (before after : file_map) paths :
  file ∉ before.*1 →
  addFile file path (before ++ (file, paths) :: after)
  = before ++ (file, paths ++ [path]) :: after.
Proof.
  intros Hnew. unfold addFile.
  replace (files_get file (before ++ (file, paths) :: after)) with (Some paths).
  - induction before as [|[k ps] rest IH]; simpl.
    + by rewrite decide_True.
    + csimpl in Hnew. apply not_elem_of_cons in Hnew as [Hne Hnew].
      rewrite decide_False by done. by rewrite IH.
  - induction before as [|[k ps] rest IH]; simpl.
    + by rewrite decide_True.
    + csimpl in Hnew. apply not_elem_of_cons in Hnew as [Hne Hnew].
      rewrite decide_False by done. by apply IH.
Qed.

(** C8: a value the predicate accepts is a leaf wherever it is met, and
    whatever it is made of: the call returns [null] for the clone, and
    leaves the heap as it is, with no object read or added.  The value
    is recorded under the current path: when it is not yet a key of the
    map, as a new last entry with that one path; when it is, by adding
    the path at the end of the paths of its entry, which stays where
    it is, as do all other entries.  In particular [extractFiles(f)] is
    [{ clone: null, files: {f: ['']} }] and [extractFiles(f, 'p')] is
    [{ clone: null, files: {f: ['p']} }]. *)
Theorem extractable_is_leaf fl P fuel (h : heap) value path recursed files :
  P h value = true →
  ∃ files',
    recurse fl P (S fuel) value path recursed (mkState h files)
    = Ok (VNull, mkState h files')
    ∧ (value ∉ files.*1 → files' = files ++ [(value, [path])])
    ∧ (∀ before paths after,
         files = before ++ (value, paths) :: after → value ∉ before.*1 →
         files' = before ++ (value, paths ++ [path]) :: after)
    ∧ extractFiles fl P (S fuel) h value path
      = Ok (mkResult VNull [(value, [path])] h)
    ∧ extractFiles fl P (S fuel) h value ""
      = Ok (mkResult VNull [(value, [""])] h)
    ∧ extractFiles fl P (S fuel) h value "p"
      = Ok (mkResult VNull [(value, ["p"])] h).
Proof.
  intros Hfile. exists (addFile value path files). split_and!.
  - simpl. by rewrite Hfile.
  - apply addFile_new.
  - intros before paths after -> Hnew. by apply addFile_known.
  - unfold extractFiles. simpl. by rewrite Hfile.
  - unfold extractFiles. simpl. by rewrite Hfile.
  - unfold extractFiles. simpl. by rewrite Hfile.
Qed.

Lemma extractable_is_leaf_witness :
  recurse true defaultIsExtractableFile 1 (VRef 0) "b" None
    (mkState [Tests.file; Tests.file] [(VRef 1, ["c"]); (VRef 0, ["a"])])
  = Ok (VNull,
        mkState [Tests.file; Tests.file] [(VRef 1, ["c"]); (VRef 0, ["a"; "b"])]).
Proof.
  destruct (extractable_is_leaf true defaultIsExtractableFile 0
              [Tests.file; Tests.file] (VRef 0) "b" None
              [(VRef 1, ["c"]); (VRef 0, ["a"])] eq_refl)
    as (files' & Hrun & _ & Hknown & _).
  rewrite Hrun.
  rewrite (Hknown [(VRef 1, ["c"])] ["a"] [] eq_refl); [reflexivity|].
  intros Hin. apply list_elem_of_singleton in Hin. discriminate Hin.
Defined.

(** [extractFiles(f)] and [extractFiles(f, 'p')] for a file [f]. *)
Example extract_file_alone :
  extractFiles true defaultIsExtractableFile 1 [Tests.file] (VRef 0) ""
  = Ok (mkResult VNull [(VRef 0, [""])] [Tests.file])
  ∧ extractFiles true defaultIsExtractableFile 1 [Tests.file] (VRef 0) "p"
    = Ok (mkResult VNull [(VRef 0, ["p"])] [Tests.file]).
Proof. split; vm_compute; reflexivity. Qed.

(** ** The input is left as it was *)

(** C7: [extractFiles] does not write to any object of its input: in the
    heap it returns, every object of the input heap is found at its
    address with the fields and elements it had; what is new are the
    objects added after them (the clone) and the map of files. *)
Theorem extract_preserves_input fl P fuel (h : heap) value path res :
  extractFiles fl P fuel h value path = Ok res →
  h `prefix_of` res_heap res
  ∧ ∀ a o, h !! a = Some o → res_heap res !! a = Some o.
Proof.
  unfold extractFiles. intros Hrun.
  apply bind_Ok_inv in Hrun as ([clone st] & Hrun & Hres).
  inversion Hres; subst; clear Hres. simpl.
  apply recurse_prefix in Hrun. simpl in Hrun.
  split; [done|]. intros a o Ha. by eapply prefix_lookup_Some.
Qed.

Lemma extract_preserves_input_witness :
  Tests.shared_array
  `prefix_of` [ OPlain [("a", VRef 1); ("b", VRef 1)]; OArray [Some (VRef 2)];
                Tests.file;
                OPlain [("a", VRef 4); ("b", VRef 5)];
                OArray [Some VNull]; OArray [Some VNull] ].
Proof.
  refine (proj1 (extract_preserves_input true defaultIsExtractableFile 4
                   Tests.shared_array (VRef 0) ""
                   (mkResult (VRef 3) [(VRef 2, ["a.0"; "b.0"])] _) _)).
  vm_compute. reflexivity.
Defined.

(** ** The marker class *)

Lemma prop_get_elem key v (props : list (string * val)) :
  NoDup props.*1 → (key, v) ∈ props → prop_get key props = Some v.
Proof.
  induction props as [|[k w] rest IH]; intros Hnd Hin;
    [by apply elem_of_nil in Hin|].
  csimpl in Hnd. apply NoDup_cons in Hnd as [Hk Hnd]. simpl.
  apply elem_of_cons in Hin as [[= -> ->]|Hin]; [by rewrite decide_True|].
  rewrite decide_False; [by apply IH|].
  intros ->. apply Hk. apply list_elem_of_fmap. by exists (key, v).
Qed.

Lemma prop_get_absent key (props : list (string * val)) :
  key ∉ props.*1 → prop_get key props = None.
Proof.
  induction props as [|[k w] rest IH]; intros Hnew; [done|].
  csimpl in Hnew. apply not_elem_of_cons in Hnew as [Hne Hnew]. simpl.
  rewrite decide_False by done. by apply IH.
Qed.

(** C9: the constructor checks nothing.  For every argument but
    [undefined] and [null], which cannot be destructured, it returns a
    new instance, the one object added to the heap, with the three
    fields [uri], [name] and [type], in this order, and no other.  Each
    field holds what the argument has under that name: the value of its
    property of that name, whatever that value is, when the argument is
    an object with such a property, and [undefined] when it is an
    object without one, or an array, a file list or a primitive. *)
Theorem ReactNativeFile_stores_verbatim (h : heap) (file : val) :
  file ≠ VUndefined → file ≠ VNull →
  ∃ uri name type,
    ReactNativeFile h file
    = Ok (VRef (length h),
          h ++ [OOther "ReactNativeFile"
                  [("uri", uri); ("name", name); ("type", type)]])
    ∧ ∀ key stored,
        (key, stored) ∈ [("uri", uri); ("name", name); ("type", type)] →
        (∀ a props v,
           file = VRef a →
           (h !! a = Some (OPlain props)
            ∨ ∃ class, h !! a = Some (OOther class props)) →
           NoDup props.*1 → (key, v) ∈ props → stored = v)
        ∧ (∀ a props,
             file = VRef a →
             (h !! a = Some (OPlain props)
              ∨ ∃ class, h !! a = Some (OOther class props)) →
             key ∉ props.*1 → stored = VUndefined)
        ∧ ((∀ a, file = VRef a →
              ∃ items, h !! a = Some (OArray items)
                       ∨ h !! a = Some (OFileList items)) →
           stored = VUndefined).
Proof.
  intros Hundef Hnull.
  exists (get_property h file "uri"), (get_property h file "name"),
    (get_property h file "type").
  split; [by destruct file|].
  assert (Hfield : ∀ key,
    (∀ a props v,
       file = VRef a →
       (h !! a = Some (OPlain props)
        ∨ ∃ class, h !! a = Some (OOther class props)) →
       NoDup props.*1 → (key, v) ∈ props → get_property h file key = v)
    ∧ (∀ a props,
         file = VRef a →
         (h !! a = Some (OPlain props)
          ∨ ∃ class, h !! a = Some (OOther class props)) →
         key ∉ props.*1 → get_property h file key = VUndefined)
    ∧ ((∀ a, file = VRef a →
          ∃ items, h !! a = Some (OArray items)
                   ∨ h !! a = Some (OFileList items)) →
       get_property h file key = VUndefined)).
  { intros key. split_and!.
    - intros a props v -> [Ha|[class Ha]] Hnd Hin; simpl; rewrite Ha;
        by rewrite (prop_get_elem key v props Hnd Hin).
    - intros a props -> [Ha|[class Ha]] Hnew; simpl; rewrite Ha;
        by rewrite (prop_get_absent key props Hnew).
    - intros Hitems. destruct file as [| | | | |a]; try done.
      destruct (Hitems a eq_refl) as [items [Ha|Ha]]; simpl; by rewrite Ha. }
  intros key stored Hin.
  repeat (apply elem_of_cons in Hin as [[= -> ->]|Hin]; [by apply Hfield|]).
  by apply elem_of_nil in Hin.
Qed.

Lemma ReactNativeFile_stores_verbatim_witness :
  ReactNativeFile [OPlain [("name", VStr "a.jpg"); ("uri", VNum 7)]] (VRef 0)
  = Ok (VRef 1,
        [OPlain [("name", VStr "a.jpg"); ("uri", VNum 7)];
         OOther "ReactNativeFile"
           [("uri", VNum 7); ("name", VStr "a.jpg"); ("type", VUndefined)]]).
Proof.
  destruct (ReactNativeFile_stores_verbatim
              [OPlain [("name", VStr "a.jpg"); ("uri", VNum 7)]] (VRef 0))
    as (uri & name & type & Hrun & Hfields); [discriminate..|].
  assert (Hnd : NoDup [("name", VStr "a.jpg"); ("uri", VNum 7)].*1).
  { apply (bool_decide_unpack _). vm_compute. exact I. }
  destruct (Hfields "uri" uri) as (Huri & _ & _); [by left|].
  destruct (Hfields "name" name) as (Hname & _ & _); [right; by left|].
  destruct (Hfields "type" type) as (_ & Htype & _); [right; right; by left|].
  rewrite Hrun.
  rewrite (Huri 0 _ (VNum 7) eq_refl (or_introl eq_refl) Hnd);
    [|right; by left].
  rewrite (Hname 0 _ (VStr "a.jpg") eq_refl (or_introl eq_refl) Hnd);
    [|by left].
  rewrite (Htype 0 _ eq_refl (or_introl eq_refl)); [reflexivity|].
  apply (bool_decide_unpack _). vm_compute. exact I.
Defined.

(** ** Cycles *)

Lemma default_not_plain (h : heap) a props :
  h !! a = Some (OPlain props) → defaultIsExtractableFile h (VRef a) = false.
Proof. intros Ha. simpl. by rewrite Ha. Qed.

Lemma extract_circular fl fuel (h : heap) o key path :
  key ≠ "__proto__" →
  h !! o = Some (OPlain [(key, VRef o)]) →
  extractFiles fl defaultIsExtractableFile (S (S fuel)) h (VRef o) path
  = Ok (mkResult (VRef (length h)) [] (h ++ [OPlain [(key, VRef o)]])).
Proof.
  intros Hkey Ho.
  assert (Hlt : o < length h) by (by eapply lookup_lt_Some).
  unfold extractFiles.
  cbn [recurse st_heap st_files].
  rewrite (default_not_plain _ _ _ Ho), Ho.
  cbn [recursed_has mbind outcome_bind].
  rewrite bool_decide_eq_false_2 by set_solver.
  cbn [alloc st_heap st_files for_in mbind outcome_bind].
  assert (Ho' : (h ++ [OPlain []]) !! o = Some (OPlain [(key, VRef o)]))
    by (by rewrite lookup_app_l).
  cbn [recurse st_heap st_files].
  rewrite (default_not_plain _ _ _ Ho'), Ho'.
  cbn [recursed_has recursed_add mbind outcome_bind default].
  rewrite bool_decide_eq_true_2 by set_solver.
  cbn [mbind outcome_bind]. unfold store_prop. rewrite decide_False by done.
  cbn [st_heap st_files].
  do 2 f_equal.
  replace (length h) with (length h + 0) at 1 by lia.
  by rewrite alter_app_r.
Qed.

(** C2, as the code has it: for a mapping [o] whose one field refers to
    [o] itself, under the default predicate, [extractFiles] returns at
    any depth budget of at least two.  The clone [c] is a new mapping,
    not [o], with the same single key, and the value under that key is
    the original [o], passed through as it is: [c.b] is [o], and so
    [c.b.b] is [o] as well.  No file is recorded.  (The key is any but
    [__proto__], which a write to the clone does not add.) *)
Theorem circular_clone_refers_to_original fl fuel (h : heap) o key path :
  key ≠ "__proto__" →
  h !! o = Some (OPlain [(key, VRef o)]) →
  extractFiles fl defaultIsExtractableFile (S (S fuel)) h (VRef o) path
  = Ok (mkResult (VRef (length h)) [] (h ++ [OPlain [(key, VRef o)]]))
  ∧ VRef (length h) ≠ VRef o
  ∧ get_property (h ++ [OPlain [(key, VRef o)]]) (VRef (length h)) key = VRef o
  ∧ get_property (h ++ [OPlain [(key, VRef o)]]) (VRef o) key = VRef o.
Proof.
  intros Hkey Ho.
  assert (Hlt : o < length h) by (by eapply lookup_lt_Some).
  split_and!.
  - by apply extract_circular.
  - intros [=]. lia.
  - unfold get_property. rewrite lookup_app_r, Nat.sub_diag by done.
    simpl. by rewrite decide_True.
  - unfold get_property. rewrite lookup_app_l, Ho by done.
    simpl. by rewrite decide_True.
Qed.

Lemma circular_clone_refers_to_original_witness :
  extractFiles true defaultIsExtractableFile 2 Tests.circular (VRef 0) ""
  = Ok (mkResult (VRef 1) [] [OPlain [("b", VRef 0)]; OPlain [("b", VRef 0)]]).
Proof.
  refine (proj1 (circular_clone_refers_to_original true 0 Tests.circular 0 "b" ""
                   _ eq_refl)).
  discriminate.
Defined.

(** C2 as the specification states it fails: on the input of the test,
    [original.b = original], the field [b] of the clone is not the clone
    but the original object. *)
Lemma circular_clone_is_not_self_referencing :
  ¬ ∃ fuel res,
      extractFiles true defaultIsExtractableFile fuel Tests.circular (VRef 0) ""
      = Ok res
      ∧ get_property (res_heap res) (res_clone res) "b" = res_clone res.
Proof.
  intros (fuel & res & Hrun & Hself).
  destruct fuel as [|[|fuel]]; [done|done|].
  rewrite (extract_circular true fuel Tests.circular 0 "b" "") in Hrun by done.
  inversion Hrun; subst; clear Hrun.
  discriminate Hself.
Qed.

(** ** Totality *)




(** ** Plain objects *)




(** C5: the clone of a plain object does not have the keys of the
    object when one of them is [__proto__].  For
    [extractFiles({ ['__proto__']: 1, a: file }, 'p')], an object with
    the two own keys [__proto__] and [a], the clone is a new object with
    the key [a] alone: the write [clone['__proto__'] = 1] goes to the
    setter the clone inherits, which adds no key (and, the value being
    no object, does nothing else).  The file is recorded at [p.a]. *)
Example proto_key_not_cloned :
  extractFiles true defaultIsExtractableFile 2
    [OPlain [("__proto__", VNum 1); ("a", VRef 1)]; Tests.file] (VRef 0) "p"
  = Ok (mkResult (VRef 2) [(VRef 1, ["p.a"])]
          [OPlain [("__proto__", VNum 1); ("a", VRef 1)]; Tests.file;
           OPlain [("a", VNull)]]).
Proof. vm_compute. reflexivity. Qed.

(** ** A container referred to twice *)

Lemma not_on_branch (o r : nat) : o ≠ r → r ∉ ({[o]} ∪ ∅ : gset nat).
Proof.
  intros Hne [Hin%elem_of_singleton|Hin%not_elem_of_empty]%elem_of_union;
    [congruence|done].
Qed.

Lemma recurse_array_of_file fl P (h0 : heap) fuel r f path (s : gset nat) st :
  stable P → h0 `prefix_of` st_heap st →
  h0 !! r = Some (OArray [Some f]) → val_in h0 f →
  P h0 (VRef r) = false → P h0 f = true → r ∉ s →
  recurse fl P (S (S fuel)) (VRef r) path (Some s) st
  = Ok (VRef (length (st_heap st)),
        mkState (st_heap st ++ [OArray [Some VNull]])
          (addFile f (child_path path "0") (st_files st))).
Proof.
  intros Hstable Hpre Hr Hin Hfr Hff Hnew.
  assert (Hltr : r < length h0) by (by eapply lookup_lt_Some).
  cbn [recurse].
  rewrite (Hstable h0 (st_heap st) (VRef r) Hpre Hltr), Hfr.
  rewrite (prefix_lookup_Some _ _ _ _ Hr Hpre).
  cbn [recursed_has mbind outcome_bind].
  rewrite bool_decide_eq_false_2 by done.
  cbn [alloc map_items st_heap st_files length replicate mbind outcome_bind].
  rewrite (Hstable h0 (st_heap st ++ [OArray [None]]) f), Hff;
    [|by apply prefix_app_r|done].
  cbn [mbind outcome_bind]. unfold store_item. cbn [st_heap st_files].
  do 3 f_equal.
  replace (length (st_heap st)) with (length (st_heap st) + 0) at 1 by lia.
  by rewrite alter_app_r.
Qed.

(** The run on an object whose two keys refer to one array [[f]] of an
    extractable [f]. *)
Lemma extract_shared_array fl P (h : heap) fuel o r f ka kb path :
  stable P →
  h !! o = Some (OPlain [(ka, VRef r); (kb, VRef r)]) → ka ≠ kb → o ≠ r →
  ka ≠ "__proto__" → kb ≠ "__proto__" →
  h !! r = Some (OArray [Some f]) → val_in h f →
  P h (VRef o) = false → P h (VRef r) = false → P h f = true →
  extractFiles fl P (S (S (S fuel))) h (VRef o) path
  = Ok (mkResult (VRef (length h))
          [(f, [child_path (child_path path ka) "0";
                child_path (child_path path kb) "0"])]
          (h ++ [OPlain [(ka, VRef (S (length h))); (kb, VRef (S (S (length h))))];
                 OArray [Some VNull]; OArray [Some VNull]])).
Proof.
  intros Hstable Ho Hk Hor Hka Hkb Hr Hin Hfo Hfr Hff.
  unfold extractFiles.
  remember (S (S fuel)) as fuel' eqn:Hfuel.
  cbn [recurse st_heap st_files]. subst fuel'.
  rewrite Hfo, Ho.
  cbn [recursed_has mbind outcome_bind].
  rewrite bool_decide_eq_false_2 by apply not_elem_of_empty.
  cbn [alloc for_in st_heap st_files mbind outcome_bind].
  unfold recursed_add, store_prop. cbn [default].
  destruct (decide (ka = "__proto__")) as [|_]; [done|].
  destruct (decide (kb = "__proto__")) as [|_]; [done|].
  rewrite (recurse_array_of_file fl P h fuel r f);
    [|done|by apply prefix_app_r|done|done|done|done|by apply not_on_branch].
  cbn [mbind outcome_bind st_heap st_files].
  rewrite (recurse_array_of_file fl P h fuel r f);
    [|done| |done|done|done|done|by apply not_on_branch].
  2:{ cbn [st_heap]. apply prefix_alter_ge; [|done].
      rewrite <- app_assoc. by apply prefix_app_r. }
  cbn [mbind outcome_bind st_heap st_files].
  rewrite !length_alter, !length_app. cbn [length].
  do 2 f_equal.
  - replace (length h + 1) with (S (length h)) by lia.
    replace (S (length h) + 1) with (S (S (length h))) by lia.
    unfold addFile at 2. cbn [files_get app]. unfold addFile.
    cbn [files_get files_push]. by rewrite !decide_True.
  - replace (length h + 1) with (S (length h)) by lia.
    replace (S (length h) + 1) with (S (S (length h))) by lia.
    rewrite <- !app_assoc. cbn [app].
    replace (length h) with (length h + 0) at 1 2 by lia.
    rewrite !alter_app_r. cbn [alter list_alter app].
    rewrite <- !app_assoc. cbn [app].
    rewrite alter_app_r. cbn [alter list_alter prop_set].
    by rewrite decide_False.
Qed.

(** ** The map of files *)

Lemma elem_of_first_seen x (l : list val) : x ∈ first_seen l ↔ x ∈ l.
Proof.
  induction l as [|y l IH]; csimpl; [done|].
  rewrite !elem_of_cons, list_elem_of_filter, IH.
  destruct (decide (x = y)) as [->|Hne]; [by split; [left|left]|].
  split.
  - intros [?|[_ ?]]; [by left|by right].
  - intros [?|?]; [by left|by right].
Qed.

Lemma NoDup_first_seen (l : list val) : NoDup (first_seen l).
Proof.
  induction l as [|y l IH]; csimpl; [apply NoDup_nil_2|].
  apply NoDup_cons. split.
  - rewrite list_elem_of_filter. by intros [? _].
  - by apply NoDup_filter.
Qed.

Lemma first_seen_snoc x (l : list val) :
  first_seen (l ++ [x])
  = if decide (x ∈ l) then first_seen l else first_seen l ++ [x].
Proof.
  induction l as [|y l IH]; [done|]. csimpl.
  - rewrite IH. destruct (decide (x ∈ l)) as [Hin|Hnin].
    + rewrite decide_True; [done|]. by right.
    + rewrite filter_app. csimpl.
      destruct (decide (x = y)) as [->|Hne].
      * rewrite decide_True by (by left).
        rewrite filter_cons_False by (by intros ?).
        by rewrite filter_nil, app_nil_r.
      * rewrite decide_False.
        2:{ intros [?|?]%elem_of_cons; done. }
        rewrite filter_cons_True by done. by rewrite filter_nil.
Qed.

Lemma paths_of_snoc g f p (log : list (val * string)) :
  paths_of g (log ++ [(f, p)])
  = paths_of g log ++ (if decide (f = g) then [p] else []).
Proof.
  unfold paths_of. rewrite filter_app, fmap_app. f_equal.
  destruct (decide (f = g)) as [->|Hne].
  - by rewrite filter_cons_True.
  - by rewrite filter_cons_False.
Qed.

Lemma paths_of_absent g (log : list (val * string)) :
  g ∉ log.*1 → paths_of g log = [].
Proof.
  intros Hnin. unfold paths_of.
  induction log as [|[f p] log IH]; csimpl; [done|].
  csimpl in Hnin. apply not_elem_of_cons in Hnin as [Hne Hnin].
  rewrite filter_cons_False by (csimpl; congruence). by apply IH.
Qed.

Lemma files_get_fmap f (F : val → list string) (L : list val) :
  files_get f ((λ g, (g, F g)) <$> L)
  = if decide (f ∈ L) then Some (F f) else None.
Proof.
  induction L as [|g L IH]; [done|]. csimpl.
  - destruct (decide (g = f)) as [->|Hne].
    + rewrite decide_True; [done|]. by left.
    + rewrite IH. destruct (decide (f ∈ L)) as [Hin|Hnin].
      * rewrite decide_True; [done|]. by right.
      * rewrite decide_False; [done|].
        intros [?|?]%elem_of_cons; [congruence|done].
Qed.

Lemma files_push_fmap f p (F : val → list string) (L : list val) :
  NoDup L →
  files_push f p ((λ g, (g, F g)) <$> L)
  = (λ g, (g, F g ++ (if decide (f = g) then [p] else []))) <$> L.
Proof.
  induction L as [|g L IH]; intros Hnd; csimpl; [done|].
  apply NoDup_cons in Hnd as [Hg Hnd].
  destruct (decide (g = f)) as [->|Hne].
  - rewrite decide_True by done. f_equal.
    apply list_fmap_ext. intros i g Hi.
    rewrite decide_False, app_nil_r; [done|].
    intros ->. apply Hg. by eapply list_elem_of_lookup_2.
  - rewrite decide_False by congruence. rewrite app_nil_r. f_equal. by apply IH.
Qed.

(** One more call of [addFile] is one more line of the log. *)
Lemma addFile_path_index f p (log : list (val * string)) :
  addFile f p (path_index log) = path_index (log ++ [(f, p)]).
Proof.
  assert (Hsnoc : path_index (log ++ [(f, p)])
                  = (λ file, (file, paths_of file (log ++ [(f, p)])))
                    <$> (if decide (f ∈ log.*1) then first_seen log.*1
                         else first_seen log.*1 ++ [f])).
  { unfold path_index. rewrite fmap_app.
    change (fst <$> [(f, p)]) with [f]. by rewrite first_seen_snoc. }
  rewrite Hsnoc. clear Hsnoc.
  unfold addFile. unfold path_index at 1. rewrite files_get_fmap.
  destruct (decide (f ∈ first_seen log.*1)) as [Hin|Hnin].
  - assert (Hin' : f ∈ log.*1) by (by apply elem_of_first_seen).
    rewrite (decide_True (P := f ∈ log.*1)) by done.
    unfold path_index. rewrite files_push_fmap by apply NoDup_first_seen.
    apply list_fmap_ext. intros i g Hi. by rewrite paths_of_snoc.
  - assert (Hnin' : f ∉ log.*1) by (by rewrite <- elem_of_first_seen).
    rewrite (decide_False (P := f ∈ log.*1)) by done.
    rewrite fmap_app. unfold path_index. f_equal.
    + apply list_fmap_ext. intros i g Hi.
      rewrite paths_of_snoc, decide_False, app_nil_r; [done|].
      intros ->. apply Hnin. by eapply list_elem_of_lookup_2.
    + csimpl. by rewrite paths_of_snoc, decide_True, paths_of_absent by done.
Qed.

Lemma record_log (log : list (val * string)) :
  foldl (λ fs e, addFile e.1 e.2 fs) [] log = path_index log.
Proof.
  induction log as [|[f p] log IH] using rev_ind; [done|].
  rewrite foldl_app. csimpl. rewrite IH. apply addFile_path_index.
Qed.

Lemma record_all_path_index path found :
  record_all path found [] = path_index (log_of path found).
Proof.
  rewrite <- record_log. unfold record_all, log_of.
  by rewrite foldl_fmap.
Qed.

Lemma NoDup_path_index (log : list (val * string)) : NoDup (path_index log).*1.
Proof.
  unfold path_index. rewrite <- list_fmap_compose.
  rewrite (list_fmap_ext _ id (first_seen log.*1)) by done.
  rewrite list_fmap_id. apply NoDup_first_seen.
Qed.

Lemma files_get_path_index f (log : list (val * string)) :
  f ∈ log.*1 → files_get f (path_index log) = Some (paths_of f log).
Proof.
  intros Hin. unfold path_index. rewrite files_get_fmap.
  rewrite decide_True; [done|]. by apply elem_of_first_seen.
Qed.

Lemma extract_files_index fl P (h : heap) fuel value path res :
  wf_heap h → stable P → val_in h value →
  extractFiles fl P fuel h value path = Ok res →
  res_files res
  = path_index (log_of path (leaf_routes fl P fuel h value (Some ∅))).
Proof.
  intros Hwf Hstable Hin Hrun. unfold extractFiles in Hrun.
  apply bind_Ok_inv in Hrun as ([clone st] & Hrun & Hres).
  inversion Hres; subst; clear Hres. cbn [res_files].
  rewrite <- record_all_path_index.
  by apply (recurse_files fl P h) in Hrun.
Qed.

(** C4: the map of files has one entry for each extractable leaf,
    identified by its address and not by its contents; the entries are
    in the order in which the leaves are first met in pre-order; and the
    entry of a leaf lists every path at which that leaf is met, in the
    order met.  A later occurrence of a leaf adds its path at the end of
    the entry the leaf has.  The leaves met are values of the input:
    the route of each leads to it from the value given. *)
Theorem files_by_identity_in_first_seen_order fl P (h : heap) fuel value path res :
  wf_heap h → stable P → val_in h value →
  extractFiles fl P fuel h value path = Ok res →
  let log := log_of path (leaf_routes fl P fuel h value (Some ∅)) in
  res_files res = path_index log
  ∧ NoDup (res_files res).*1
  ∧ (res_files res).*1 = first_seen log.*1
  ∧ (∀ f, f ∈ log.*1 → files_get f (res_files res) = Some (paths_of f log))
  ∧ (∀ f p, addFile f p (path_index log) = path_index (log ++ [(f, p)]))
  ∧ (∀ f route,
       (f, route) ∈ leaf_routes fl P fuel h value (Some ∅) →
       follow h value route = Some f ∧ P h f = true).
Proof.
  intros Hwf Hstable Hin Hrun log.
  rewrite (extract_files_index fl P h fuel value path res) by done.
  fold log. split_and!; [| | | | |by apply leaf_routes_sound].
  - done.
  - apply NoDup_path_index.
  - unfold path_index. rewrite <- list_fmap_compose.
    rewrite (list_fmap_ext _ id (first_seen log.*1)) by done.
    apply list_fmap_id.
  - intros f Hf. by apply files_get_path_index.
  - intros f p. apply addFile_path_index.
Qed.

Lemma files_by_identity_in_first_seen_order_witness :
  [(VRef 1, ["a"; "b"])]
  = path_index
      (log_of "" (leaf_routes true defaultIsExtractableFile 3
                    Tests.same_file_twice (VRef 0) (Some ∅))).
Proof.
  refine (proj1 (files_by_identity_in_first_seen_order true
                   defaultIsExtractableFile Tests.same_file_twice 3 (VRef 0) ""
                   (mkResult (VRef 2) [(VRef 1, ["a"; "b"])] _) _ _ _ _)).
  - apply wf_heap_decide. vm_compute. reflexivity.
  - exact defaultIsExtractableFile_stable.
  - simpl. lia.
  - vm_compute. reflexivity.
Defined.

(** Two instances with the same contents have an entry each. *)
Example two_files_two_entries :
  extractFiles true defaultIsExtractableFile 3 Tests.two_files (VRef 0) ""
  = Ok (mkResult (VRef 3) [(VRef 1, ["a"]); (VRef 2, ["b"])]
          (Tests.two_files ++ [OPlain [("a", VNull); ("b", VNull)]])).
Proof. vm_compute. reflexivity. Qed.

(** ** Paths *)

Lemma elem_of_path_index f paths p (log : list (val * string)) :
  (f, paths) ∈ path_index log → p ∈ paths → (f, p) ∈ log.
Proof.
  unfold path_index. intros (g & [= <- ->] & _)%list_elem_of_fmap Hp.
  unfold paths_of in Hp.
  apply list_elem_of_fmap in Hp as ([g q] & -> & [Hg Hin]%list_elem_of_filter).
  simpl in Hg. by subst.
Qed.

(** How paths are built: one segment at a time, a segment being added
    after a ["."] when the path so far is not empty and with nothing
    before it when the path so far is empty.  So every recorded path is
    the caller's prefix and the segments of the route joined by dots when
    the prefix is not empty, and the segments joined by dots when the
    prefix is empty and the first segment is not; the segment of an
    array index is its decimal rendering, which reads back as the index
    and has no leading zero. *)
Theorem recorded_paths_built_by_steps fl P (h : heap) fuel value path res :
  wf_heap h → stable P → val_in h value →
  extractFiles fl P fuel h value path = Ok res →
  (∀ f paths p, (f, paths) ∈ res_files res → p ∈ paths →
     ∃ route, (f, route) ∈ leaf_routes fl P fuel h value (Some ∅)
              ∧ p = path_of_route path route)
  ∧ (∀ p segment,
       child_path p segment
       = match p with "" => segment | _ => p +:+ "." +:+ segment end)
  ∧ (∀ route,
       path ≠ "" → path_of_route path route = String.concat "." (path :: route))
  ∧ (∀ segment route,
       segment ≠ "" →
       path_of_route "" (segment :: route) = String.concat "." (segment :: route))
  ∧ (∀ i, index_of_string (string_of_index i) = Some i
          ∧ (string_of_index i = "0"
             ∨ ∃ c s, string_of_index i = String c s ∧ c ≠ "0"%char)).
Proof.
  intros Hwf Hstable Hin Hrun. split_and!.
  - intros f paths p Hentry Hp.
    rewrite (extract_files_index fl P h fuel value path res) in Hentry by done.
    pose proof (elem_of_path_index _ _ _ _ Hentry Hp) as Hlog.
    unfold log_of in Hlog.
    apply list_elem_of_fmap in Hlog as ([g route] & [= -> ->] & Hfound).
    by exists route.
  - apply child_path_step.
  - intros route Hne. by apply path_of_route_join.
  - intros segment route Hne.
    change (path_of_route "" (segment :: route))
      with (path_of_route (child_path "" segment) route).
    rewrite child_path_step. by apply path_of_route_join.
  - intros i. split.
    + apply index_of_string_of_index.
    + apply string_of_index_no_leading_zero.
Qed.

Lemma recorded_paths_built_by_steps_witness :
  ∃ route,
    (VRef 2, route)
    ∈ leaf_routes true defaultIsExtractableFile 3 Tests.nested (VRef 0) (Some ∅)
    ∧ "prefix.a.0" = path_of_route "prefix" route.
Proof.
  refine (proj1 (recorded_paths_built_by_steps true defaultIsExtractableFile
                   Tests.nested 3 (VRef 0) "prefix"
                   (mkResult (VRef 3) [(VRef 2, ["prefix.a.0"])]
                      (Tests.nested ++ [OPlain [("a", VRef 4)]; OArray [Some VNull]]))
                   _ _ _ _)
            (VRef 2) ["prefix.a.0"] "prefix.a.0" _ _).
  - apply wf_heap_decide. vm_compute. reflexivity.
  - exact defaultIsExtractableFile_stable.
  - simpl. lia.
  - vm_compute. reflexivity.
  - apply list_elem_of_singleton. reflexivity.
  - apply list_elem_of_singleton. reflexivity.
Defined.

(** [extractFiles({ a: [file] }, 'prefix')] *)
Example nested_with_prefix :
  extractFiles true defaultIsExtractableFile 3 Tests.nested (VRef 0) "prefix"
  = Ok (mkResult (VRef 3) [(VRef 2, ["prefix.a.0"])]
          (Tests.nested ++ [OPlain [("a", VRef 4)]; OArray [Some VNull]])).
Proof. vm_compute. reflexivity. Qed.

(** C6: paths are the segments joined by dots, but for one case the
    test of [path] in [recurse] misses.  The test tells the root from the
    rest by the path being empty, and under an empty prefix the path is
    still empty below a key [""]: on [{ '': { a: file } }] the file,
    reached through the segments [""] and ["a"], is recorded at ["a"],
    while the two segments joined by a dot are [".a"]. *)
Lemma empty_key_segment_not_separated :
  extractFiles true defaultIsExtractableFile 3 Tests.empty_key (VRef 0) ""
  = Ok (mkResult (VRef 3) [(VRef 2, ["a"])]
          (Tests.empty_key ++ [OPlain [("", VRef 4)]; OPlain [("a", VNull)]]))
  ∧ leaf_routes true defaultIsExtractableFile 3 Tests.empty_key (VRef 0) (Some ∅)
    = [(VRef 2, [""; "a"])]
  ∧ String.concat "." [""; "a"] = ".a"
  ∧ "a" ≠ String.concat "." [""; "a"].
Proof. split_and!; [by vm_compute..|done]. Qed.

(** ** A container at two positions *)

Lemma agrees_refl lo hi (h : heap) : agrees lo hi h h.
Proof. by intros a _ _. Qed.

Lemma recorded_at_leaf_route fl P (h : heap) fuel value path res f route :
  wf_heap h → stable P → val_in h value →
  extractFiles fl P fuel h value path = Ok res →
  (f, route) ∈ leaf_routes fl P fuel h value (Some ∅) →
  ∃ paths, files_get f (res_files res) = Some paths
           ∧ path_of_route path route ∈ paths.
Proof.
  intros Hwf Hstable Hin Hrun Hleaf.
  rewrite (extract_files_index fl P h fuel value path res) by done.
  set (log := log_of path (leaf_routes fl P fuel h value (Some ∅))).
  assert (Hlog : (f, path_of_route path route) ∈ log).
  { unfold log, log_of. apply list_elem_of_fmap. by exists (f, route). }
  exists (paths_of f log). split.
  - apply files_get_path_index. apply list_elem_of_fmap.
    by exists (f, path_of_route path route).
  - unfold paths_of. apply list_elem_of_fmap.
    exists (f, path_of_route path route). split; [done|].
    by apply list_elem_of_filter.
Qed.

(** C1: a container that is reached at two positions, at neither of
    them through a cycle, is entered at both. An extractable child of it
    is recorded under the paths of both positions and is [null] at both
    in the clone.  For an object [{ka: arr, kb: arr}] with [arr = [f]]
    the result is the map [{f: [ka.0, kb.0]}] and the clone
    [{ka: [null], kb: [null]}], with two arrays.  (The clone is read
    back at its own keys, so no plain object of the input has an own
    key [__proto__], which a clone does not get.) *)
Theorem shared_container_entered_at_both_positions fl P :
  (∀ (h : heap) fuel value path res route1 route2 x ox segment f,
     wf_heap h → proto_free h → stable P → val_in h value →
     extractFiles fl P fuel h value path = Ok res →
     enters P h ∅ value route1 x = true →
     enters P h ∅ value route2 x = true →
     h !! x = Some ox → get_child ox segment = Some f → P h f = true →
     (∃ paths, files_get f (res_files res) = Some paths
               ∧ path_of_route path (route1 ++ [segment]) ∈ paths
               ∧ path_of_route path (route2 ++ [segment]) ∈ paths)
     ∧ follow (res_heap res) (res_clone res) (route1 ++ [segment]) = Some VNull
     ∧ follow (res_heap res) (res_clone res) (route2 ++ [segment]) = Some VNull)
  ∧ (∀ (h : heap) fuel o r f ka kb path,
       stable P →
       h !! o = Some (OPlain [(ka, VRef r); (kb, VRef r)]) → ka ≠ kb → o ≠ r →
       ka ≠ "__proto__" → kb ≠ "__proto__" →
       h !! r = Some (OArray [Some f]) → val_in h f →
       P h (VRef o) = false → P h (VRef r) = false → P h f = true →
       extractFiles fl P (S (S (S fuel))) h (VRef o) path
       = Ok (mkResult (VRef (length h))
               [(f, [child_path (child_path path ka) "0";
                     child_path (child_path path kb) "0"])]
               (h ++ [OPlain [(ka, VRef (S (length h)));
                              (kb, VRef (S (S (length h))))];
                      OArray [Some VNull]; OArray [Some VNull]]))).
Proof.
  split; [|by apply extract_shared_array].
  intros h fuel value path res route1 route2 x ox segment f
    Hwf Hproto Hstable Hin Hrun Hent1 Hent2 Hx Hget Hfile.
  pose proof Hrun as Hrun'. unfold extractFiles in Hrun'.
  apply bind_Ok_inv in Hrun' as ([clone st] & Hrec & Hres).
  inversion Hres; subst res; clear Hres. cbn [res_heap res_clone res_files].
  destruct (follow_entered_leaf fl P h Hwf Hproto Hstable route1 fuel value path ∅
              (mkState h []) clone st x ox segment f (st_heap st))
    as [Hnull1 Hleaf1]; [done..|apply agrees_refl|].
  destruct (follow_entered_leaf fl P h Hwf Hproto Hstable route2 fuel value path ∅
              (mkState h []) clone st x ox segment f (st_heap st))
    as [Hnull2 Hleaf2]; [done..|apply agrees_refl|].
  split_and!; [|done|done].
  destruct (recorded_at_leaf_route fl P h fuel value path _ f _
              Hwf Hstable Hin Hrun Hleaf1) as (paths & Hpaths & Hp1).
  destruct (recorded_at_leaf_route fl P h fuel value path _ f _
              Hwf Hstable Hin Hrun Hleaf2) as (paths' & Hpaths' & Hp2).
  cbn [res_files] in Hpaths, Hpaths'.
  rewrite Hpaths in Hpaths'. inversion Hpaths'; subst paths'.
  by exists paths.
Qed.

Lemma shared_container_entered_at_both_positions_witness :
  (∃ paths, files_get (VRef 2) [(VRef 2, ["a.0"; "b.0"])] = Some paths
            ∧ "a.0" ∈ paths ∧ "b.0" ∈ paths)
  ∧ follow (Tests.shared_array
            ++ [OPlain [("a", VRef 4); ("b", VRef 5)];
                OArray [Some VNull]; OArray [Some VNull]])
      (VRef 3) ["a"; "0"] = Some VNull
  ∧ follow (Tests.shared_array
            ++ [OPlain [("a", VRef 4); ("b", VRef 5)];
                OArray [Some VNull]; OArray [Some VNull]])
      (VRef 3) ["b"; "0"] = Some VNull.
Proof.
  apply (proj1 (shared_container_entered_at_both_positions true
                  defaultIsExtractableFile)
           Tests.shared_array 3 (VRef 0) ""
           (mkResult (VRef 3) [(VRef 2, ["a.0"; "b.0"])]
              (Tests.shared_array
               ++ [OPlain [("a", VRef 4); ("b", VRef 5)];
                   OArray [Some VNull]; OArray [Some VNull]]))
           ["a"] ["b"] 1 (OArray [Some (VRef 2)]) "0" (VRef 2)).
  - apply wf_heap_decide. vm_compute. reflexivity.
  - apply proto_free_decide. vm_compute. reflexivity.
  - exact defaultIsExtractableFile_stable.
  - simpl. lia.
  - vm_compute. reflexivity.
  - vm_compute. reflexivity.
  - vm_compute. reflexivity.
  - reflexivity.
  - vm_compute. reflexivity.
  - reflexivity.
Defined.

(** C10: the clone does not keep the sharing of a container.  When an
    array or plain object is reached at two different positions, at
    neither of them through a cycle, the clone holds at these two
    positions two different objects, both new to the heap and both of
    the shape of the shared original.  (The shape of a plain object is
    its keys, so no plain object of the input has an own key
    [__proto__], which a clone does not get.) *)
Theorem shared_container_cloned_apart
    fl P (h : heap) fuel value path res route1 route2 x ox :
  wf_heap h → proto_free h → stable P → val_in h value →
  extractFiles fl P fuel h value path = Ok res →
  enters P h ∅ value route1 x = true →
  enters P h ∅ value route2 x = true →
  route1 ≠ route2 → h !! x = Some ox →
  ∃ c1 c2 o1 o2,
    follow (res_heap res) (res_clone res) route1 = Some (VRef c1)
    ∧ follow (res_heap res) (res_clone res) route2 = Some (VRef c2)
    ∧ c1 ≠ c2 ∧ length h ≤ c1 ∧ length h ≤ c2
    ∧ res_heap res !! c1 = Some o1 ∧ res_heap res !! c2 = Some o2
    ∧ same_shape ox o1 ∧ same_shape ox o2.
Proof.
  intros Hwf Hproto Hstable Hin Hrun Hent1 Hent2 Hne Hx.
  unfold extractFiles in Hrun.
  apply bind_Ok_inv in Hrun as ([clone st] & Hrec & Hres).
  inversion Hres; subst res; clear Hres. cbn [res_heap res_clone].
  destruct (follow_entered fl P h Hwf Hproto Hstable route1 fuel value path ∅
              (mkState h []) clone st x (st_heap st))
    as (c1 & ox1 & o1 & Hf1 & Hge1 & _ & _ & _ & Hx1 & Ho1 & Hs1);
    [done..|apply agrees_refl|].
  destruct (follow_entered fl P h Hwf Hproto Hstable route2 fuel value path ∅
              (mkState h []) clone st x (st_heap st))
    as (c2 & ox2 & o2 & Hf2 & Hge2 & _ & _ & _ & Hx2 & Ho2 & Hs2);
    [done..|apply agrees_refl|].
  rewrite Hx in Hx1, Hx2. inversion Hx1; inversion Hx2; subst ox1 ox2.
  exists c1, c2, o1, o2. split_and!; try done.
  eapply (follow_entered_distinct fl P h Hwf Hproto Hstable route1 route2 fuel value
            path ∅ (mkState h []) clone st x x (st_heap st) c1 c2); done.
Qed.

Lemma shared_container_cloned_apart_witness :
  ∃ c1 c2 o1 o2,
    follow (Tests.shared_array
            ++ [OPlain [("a", VRef 4); ("b", VRef 5)];
                OArray [Some VNull]; OArray [Some VNull]])
      (VRef 3) ["a"] = Some (VRef c1)
    ∧ follow (Tests.shared_array
              ++ [OPlain [("a", VRef 4); ("b", VRef 5)];
                  OArray [Some VNull]; OArray [Some VNull]])
        (VRef 3) ["b"] = Some (VRef c2)
    ∧ c1 ≠ c2 ∧ 3 ≤ c1 ∧ 3 ≤ c2
    ∧ (Tests.shared_array
       ++ [OPlain [("a", VRef 4); ("b", VRef 5)];
           OArray [Some VNull]; OArray [Some VNull]]) !! c1 = Some o1
    ∧ (Tests.shared_array
       ++ [OPlain [("a", VRef 4); ("b", VRef 5)];
           OArray [Some VNull]; OArray [Some VNull]]) !! c2 = Some o2
    ∧ same_shape (OArray [Some (VRef 2)]) o1
    ∧ same_shape (OArray [Some (VRef 2)]) o2.
Proof.
  apply (shared_container_cloned_apart true defaultIsExtractableFile
           Tests.shared_array 3 (VRef 0) ""
           (mkResult (VRef 3) [(VRef 2, ["a.0"; "b.0"])]
              (Tests.shared_array
               ++ [OPlain [("a", VRef 4); ("b", VRef 5)];
                   OArray [Some VNull]; OArray [Some VNull]]))
           ["a"] ["b"] 1 (OArray [Some (VRef 2)])).
  - apply wf_heap_decide. vm_compute. reflexivity.
  - apply proto_free_decide. vm_compute. reflexivity.
  - exact defaultIsExtractableFile_stable.
  - simpl. lia.
  - vm_compute. reflexivity.
  - vm_compute. reflexivity.
  - vm_compute. reflexivity.
  - discriminate.
  - reflexivity.
Defined.

(** ** The tests of the repository, run on the model *)

Section tests.

Let extract := extractFiles true defaultIsExtractableFile 4.

(** [extractFiles(value)] for a value that is no object *)
Example test_scalars :
  Forall (λ value, extract [] value "" = Ok (mkResult value [] []))
    [VUndefined; VNull; VBool false; VBool true; VStr ""; VStr "a"; VNum 0; VNum 1].
Proof. repeat constructor. Qed.

(** [extractFiles(value)], [extractFiles({ a: value })] and
    [extractFiles([value])] for a [Date] instance *)
Example test_date :
  extract Tests.date (VRef 0) "" = Ok (mkResult (VRef 0) [] Tests.date)
  ∧ extract Tests.date (VRef 1) ""
    = Ok (mkResult (VRef 3) [] (Tests.date ++ [OPlain [("a", VRef 0)]]))
  ∧ extract Tests.date (VRef 2) ""
    = Ok (mkResult (VRef 3) [] (Tests.date ++ [OArray [Some (VRef 0)]])).
Proof. by vm_compute. Qed.

(** [extractFiles] with a [FileList] instance *)
Example test_file_list :
  extract Tests.file_list (VRef 0) ""
  = Ok (mkResult (VRef 3) [(VRef 1, ["0"]); (VRef 2, ["1"])]
          (Tests.file_list ++ [OArray [Some VNull; Some VNull]])).
Proof. by vm_compute. Qed.

(** [extractFiles] with an object containing multiple references of a file *)
Example test_same_file_twice :
  extract Tests.same_file_twice (VRef 0) ""
  = Ok (mkResult (VRef 2) [(VRef 1, ["a"; "b"])]
          (Tests.same_file_twice ++ [OPlain [("a", VNull); ("b", VNull)]])).
Proof. by vm_compute. Qed.

(** [extractFiles] with a nested object, and a nested array, containing a file *)
Example test_nested :
  extract Tests.nested_object (VRef 0) ""
  = Ok (mkResult (VRef 3) [(VRef 2, ["a.a"])]
          (Tests.nested_object ++ [OPlain [("a", VRef 4)]; OPlain [("a", VNull)]]))
  ∧ extract Tests.nested_array (VRef 0) ""
    = Ok (mkResult (VRef 3) [(VRef 2, ["0.0"])]
            (Tests.nested_array ++ [OArray [Some (VRef 4)]; OArray [Some VNull]])).
Proof. by vm_compute. Qed.

(** [extractFiles] with a third [isExtractableFile] parameter *)
Example test_custom_predicate :
  extractFiles true Tests.isCustomFile 4 Tests.custom_file (VRef 0) ""
  = Ok (mkResult VNull [(VRef 0, [""])] Tests.custom_file)
  ∧ extract Tests.custom_file (VRef 0) ""
    = Ok (mkResult (VRef 0) [] Tests.custom_file).
Proof. by vm_compute. Qed.

End tests.

(** * Further properties of the code *)

(** ** [addFile] *)

(** X1: after [addFile(file, path)] the entry of [file] is the entry it had,
    none if it had none, with [path] added at the end; the entry of
    every other key is as it was. *)
Theorem addFile_get (file other : val) (path : string) (files : file_map) :
  files_get file (addFile file path files)
  = Some (default [] (files_get file files) ++ [path])
  ∧ (other ≠ file →
     files_get other (addFile file path files) = files_get other files).
Proof.
  unfold addFile. split.
  - destruct (files_get file files) as [paths|] eqn:Hget; simpl.
    + induction files as [|[k ps] rest IH]; [done|]. simpl in *.
      destruct (decide (k = file)) as [->|Hne]; simpl.
      * rewrite decide_True by done. by simplify_eq.
      * rewrite decide_False by done. by apply IH.
    + induction files as [|[k ps] rest IH]; simpl in *.
      * by rewrite decide_True.
      * destruct (decide (k = file)); [done|]. by apply IH.
  - intros Hother. destruct (files_get file files) as [paths|] eqn:Hget.
    + clear Hget. induction files as [|[k ps] rest IH]; [done|]. simpl.
      destruct (decide (k = file)) as [->|Hne]; simpl.
      * by rewrite !decide_False by done.
      * destruct (decide (k = other)); [done|]. by apply IH.
    + clear Hget. induction files as [|[k ps] rest IH]; simpl.
      * by rewrite decide_False by done.
      * destruct (decide (k = other)); [done|]. by apply IH.
Qed.

Lemma addFile_get_witness :
  files_get (VStr "g") (addFile (VStr "f") "p" [(VStr "g", ["q"])])
  = files_get (VStr "g") [(VStr "g", ["q"])].
Proof.
  apply (proj2 (addFile_get (VStr "f") (VStr "g") "p" [(VStr "g", ["q"])])).
  discriminate.
Defined.

(** X2: [addFile] removes no key and moves none: a key that is there stays
    where it is, a new one comes last; and it never makes a key occur
    twice. *)
Theorem addFile_keys (file : val) (path : string) (files : file_map) :
  (addFile file path files).*1
  = (if decide (file ∈ files.*1) then files.*1 else files.*1 ++ [file])
  ∧ (NoDup files.*1 → NoDup (addFile file path files).*1).
Proof.
  assert (Hget : ∀ fs : file_map,
             files_get file fs = None ↔ file ∉ fs.*1).
  { induction fs as [|[k ps] rest IH]; csimpl.
    - split; [intros _; apply not_elem_of_nil|done].
    - destruct (decide (k = file)) as [->|Hne].
      + split; [done|]. intros Hnin. destruct Hnin. by left.
      + rewrite IH, not_elem_of_cons. split; [by split|by intros [_ ?]]. }
  assert (Hpush : ∀ fs : file_map, (files_push file path fs).*1 = fs.*1).
  { induction fs as [|[k ps] rest IH]; [done|]. csimpl.
    destruct (decide (k = file)); [done|]. csimpl. by rewrite IH. }
  assert (Hkeys : (addFile file path files).*1
                  = (if decide (file ∈ files.*1) then files.*1
                     else files.*1 ++ [file])).
  { unfold addFile. destruct (files_get file files) as [paths|] eqn:Hg.
    - rewrite Hpush, decide_True; [done|].
      destruct (decide (file ∈ files.*1)); [done|].
      apply Hget in n. congruence.
    - apply Hget in Hg. rewrite decide_False by done.
      by rewrite fmap_app. }
  split; [done|]. intros Hnd. rewrite Hkeys.
  destruct (decide (file ∈ files.*1)) as [Hin|Hnin]; [done|].
  apply NoDup_app. split_and!; [done| |apply NoDup_singleton].
  intros x Hx ->%list_elem_of_singleton. done.
Qed.

Lemma addFile_keys_witness :
  NoDup (addFile (VStr "f") "p" [(VStr "g", ["q"])]).*1.
Proof.
  apply (proj2 (addFile_keys (VStr "f") "p" [(VStr "g", ["q"])])).
  apply NoDup_singleton.
Defined.

(** ** Values that are not entered *)

Lemma passes_through_prefix fl (h h' : heap) v :
  h `prefix_of` h' → val_in h v →
  passes_through fl h' v = passes_through fl h v.
Proof.
  intros Hpre Hin. destruct v as [| | | | |a]; try done.
  simpl in *. by rewrite (lookup_prefix_in _ _ _ Hpre Hin).
Qed.

Lemma recurse_passes_through fl P fuel value path recursed st :
  P (st_heap st) value = false → passes_through fl (st_heap st) value = true →
  recurse fl P (S fuel) value path recursed st = Ok (value, st).
Proof.
  intros Hfile Hpass. cbn [recurse]. rewrite Hfile.
  destruct value as [| | | | |a]; try done. simpl in Hpass.
  destruct (st_heap st !! a) as [[items|items|props|class props]|]; try done.
  by destruct fl.
Qed.

(** X3: a value that the predicate rejects and that is neither an array nor
    a plain object (nor a file list, where the platform has
    [FileList]), such as a primitive, a function or an instance of a
    class, is the whole result: the clone is the value itself, no file
    is recorded and no object is made, whatever the path prefix. *)
Theorem extract_passes_through fl P fuel (h : heap) value path :
  P h value = false → passes_through fl h value = true →
  extractFiles fl P (S fuel) h value path = Ok (mkResult value [] h).
Proof.
  intros Hfile Hpass. unfold extractFiles.
  by rewrite (recurse_passes_through fl P fuel value path (Some ∅) (mkState h [])).
Qed.

Lemma extract_passes_through_witness :
  extractFiles true defaultIsExtractableFile 1 Tests.date (VRef 0) "prefix"
  = Ok (mkResult (VRef 0) [] Tests.date).
Proof.
  apply (extract_passes_through true defaultIsExtractableFile 0 Tests.date
           (VRef 0) "prefix"); reflexivity.
Defined.

(** A child of a container that is entered is dealt with by a call of
    [recurse] of its own, at the path of its position and with the
    containers on the way to it as the visited set; what that call
    returns is in the clone at the position of the child. *)
Lemma follow_entered_child fl P (h0 : heap) :
  wf_heap h0 → proto_free h0 → stable P →
  ∀ route fuel v path (s : gset nat) st clone st' x ox segment child (H : heap),
    h0 `prefix_of` st_heap st → val_in h0 v →
    recurse fl P fuel v path (Some s) st = Ok (clone, st') →
    enters P h0 s v route x = true →
    h0 !! x = Some ox → get_child ox segment = Some child →
    agrees (length (st_heap st)) (length (st_heap st')) H (st_heap st') →
    ∃ fuel' s1 c s2,
      recurse fl P fuel' child (path_of_route path (route ++ [segment]))
        (Some (visited_at h0 s v route)) s1
      = Ok (c, s2)
      ∧ h0 `prefix_of` st_heap s1 ∧ val_in h0 child
      ∧ length (st_heap st) < length (st_heap s1)
      ∧ length (st_heap s2) ≤ length (st_heap st')
      ∧ agrees (length (st_heap s1)) (length (st_heap s2)) H (st_heap s2)
      ∧ follow H clone (route ++ [segment]) = Some c.
Proof.
  intros Hwf Hproto Hstable.
  induction route as [|segment0 rest IH];
    intros fuel v path s st clone st' x ox segment child H
      Hpre Hin Hrun Hent Hx Hget Hagree;
    apply enters_inv in Hent as (a & o & -> & Hfa & Hnew & Ha & Hclonable & Hroute);
    destruct (recurse_enter_inv fl P h0 fuel a o path s st clone st')
      as (fuel' & o' & runs & -> & -> & Hgrow & Ho' & Hshape & Hslots & Hall & Hord);
    try done; try (by eapply proto_free_lookup).
  - subst x. rewrite Ha in Hx. inversion Hx; subst ox; clear Hx.
    apply get_child_inv in Hget as (i & Hslot & Hchild).
    destruct (Hall segment i child Hslot Hchild)
      as (s1 & c & s2 & Hr & Hc & Hcall & Hp1 & Hl1 & Hl2 & Hkeep).
    exists fuel', s1, c, s2.
    split_and!; [exact Hcall|done|by eapply child_val_in|done|done| |].
    + intros b Hb1 Hb2. rewrite Hagree by lia. by apply Hkeep.
    + cbn [app follow]. rewrite Hagree by lia. rewrite Ho'. simpl.
      rewrite (get_child_slot o' segment i c); [done| |done].
      by rewrite Hslots.
  - destruct Hroute as (child0 & Hget0 & Hent).
    pose proof Hget0 as Hget0'.
    apply get_child_inv in Hget0 as (i & Hslot & Hchild).
    destruct (Hall segment0 i child0 Hslot Hchild)
      as (s1 & c & s2 & Hr & Hc & Hcall & Hp1 & Hl1 & Hl2 & Hkeep).
    destruct (IH fuel' child0 (child_path path segment0) ({[a]} ∪ s) s1 c s2
                x ox segment child H)
      as (fuel'' & t1 & d & t2 & Hrec & Hpt & Hinc & Hlt1 & Hlt2 & Hag & Hfollow);
      [done|exact (child_val_in h0 a o i child0 Hwf Ha Hchild)
       |done|done|done|done| |].
    { intros b Hb1 Hb2. rewrite Hagree by lia. by apply Hkeep. }
    exists fuel'', t1, d, t2. split_and!; [|done|done|lia|lia|done|].
    + cbn [visited_at]. rewrite Ha. cbn [mbind option_bind]. rewrite Hget0'.
      exact Hrec.
    + cbn [app follow]. rewrite Hagree by lia. rewrite Ho'. simpl.
      rewrite (get_child_slot o' segment0 i c); [done| |done].
      by rewrite Hslots.
Qed.

Lemma visited_at_mono (h : heap) (s : gset nat) v route y :
  y ∈ s → y ∈ visited_at h s v route.
Proof.
  revert s v. induction route as [|segment rest IH]; intros s v Hy;
    destruct v as [| | | | |a]; try done; cbn [visited_at].
  - apply elem_of_union. by right.
  - destruct (h !! a ≫= λ o, get_child o segment) as [child|].
    + apply IH. apply elem_of_union. by right.
    + apply elem_of_union. by right.
Qed.

(** The containers on the way to a position are in the visited set of
    its children. *)
Lemma visited_at_ancestor P (h : heap) (s : gset nat) v route x k y :
  enters P h s v route x = true →
  follow h v (take k route) = Some (VRef y) →
  y ∈ visited_at h s v route.
Proof.
  revert s v k. induction route as [|segment rest IH]; intros s v k Hent Hfollow;
    apply enters_inv in Hent as (a & o & -> & _ & _ & Ha & _ & Hroute).
  - rewrite take_nil in Hfollow. simpl in Hfollow. simplify_eq.
    cbn [visited_at]. apply elem_of_union. left. by apply elem_of_singleton.
  - destruct Hroute as (child & Hget & Hent).
    cbn [visited_at]. rewrite Ha. cbn [mbind option_bind]. rewrite Hget.
    destruct k as [|k]; simpl in Hfollow.
    + simplify_eq. apply visited_at_mono. apply elem_of_union. left.
      by apply elem_of_singleton.
    + rewrite Ha in Hfollow. simpl in Hfollow. rewrite Hget in Hfollow.
      simpl in Hfollow. by eapply IH.
Qed.

Lemma visited_at_inv P (h : heap) (s : gset nat) v route x y :
  enters P h s v route x = true → y ∈ visited_at h s v route →
  y ∈ s ∨ (P h (VRef y) = false ∧ ∃ o, h !! y = Some o ∧ clonable o = true).
Proof.
  revert s v. induction route as [|segment rest IH]; intros s v Hent Hy;
    apply enters_inv in Hent as (a & o & -> & Hfile & _ & Ha & Hclonable & Hroute).
  - cbn [visited_at] in Hy.
    apply elem_of_union in Hy as [->%elem_of_singleton|Hy]; [|by left].
    right. split; [done|by exists o].
  - destruct Hroute as (child & Hget & Hent).
    cbn [visited_at] in Hy. rewrite Ha in Hy. cbn [mbind option_bind] in Hy.
    rewrite Hget in Hy.
    destruct (IH _ _ Hent Hy) as [Hin|Hin]; [|by right].
    apply elem_of_union in Hin as [->%elem_of_singleton|Hin]; [|by left].
    right. split; [done|by exists o].
Qed.

(** The nested calls made for the children of a container that is
    entered, whatever its keys. *)
Lemma recurse_enter_calls fl P (h0 : heap) fuel a o path (s : gset nat) st clone st' :
  wf_heap h0 → stable P → h0 `prefix_of` st_heap st →
  h0 !! a = Some o → clonable o = true → P h0 (VRef a) = false → a ∉ s →
  recurse fl P fuel (VRef a) path (Some s) st = Ok (clone, st') →
  ∃ fuel',
    fuel = S fuel'
    ∧ ∀ segment child,
        get_child o segment = Some child →
        ∃ s1 c s2,
          recurse fl P fuel' child (child_path path segment)
            (Some ({[a]} ∪ s)) s1
          = Ok (c, s2)
          ∧ h0 `prefix_of` st_heap s1.
Proof.
  intros Hwf Hstable Hpre Ha Hclonable Hfile Hnew Hrun.
  assert (Hlt : a < length h0) by (by eapply lookup_lt_Some).
  pose proof (wf_heap_lookup _ _ _ Hwf Ha) as [_ Hnd].
  destruct fuel as [|fuel]; [done|]. simpl in Hrun.
  rewrite (Hstable h0 (st_heap st) (VRef a) Hpre Hlt), Hfile in Hrun.
  rewrite (prefix_lookup_Some _ _ _ _ Ha Hpre) in Hrun.
  exists fuel. split; [done|]. intros segment child Hget.
  apply get_child_inv in Hget as (i & Hslot & Hchild).
  destruct o as [items|items|props|class props]; try done; simpl in Hrun.
  - rewrite bool_decide_eq_false_2 in Hrun by done.
    apply bind_Ok_inv in Hrun as (st2 & Hloop & Hrun).
    eapply (map_items_runs h0 _ _ _ _ _ _ []) in Hloop
      as (runs & _ & _ & _ & Hall & _); simpl.
    + simpl in Hslot, Hchild.
      destruct (index_of_string segment) as [i'|]; [|done]. simpl in Hslot.
      destruct (decide (string_of_index i' = segment)) as [<-|]; [|done].
      inversion Hslot; subst; clear Hslot.
      destruct (Hall i child Hchild) as (s1 & c & s2 & _ & Hcall & Hp1 & _).
      by exists s1, c, s2.
    + intros item j [] s0 r s' Hcall. by eapply recurse_prefix.
    + by rewrite lookup_app_r, Nat.sub_diag.
    + done.
    + by apply prefix_app_r.
    + by apply prefix_length.
  - rewrite bool_decide_eq_false_2 in Hrun by done.
    apply bind_Ok_inv in Hrun as (st2 & Hloop & Hrun).
    simpl in Hnd.
    eapply (for_in_runs h0 _ _ _ _ _ []) in Hloop
      as (runs & Hlen & _ & Hall & _); simpl.
    + cbn [slot_of obj_children] in Hslot, Hchild.
      apply fmap_Some in Hslot as ([i' key] & Hfind & ->).
      apply list_find_Some in Hfind as (Hkey & -> & _). cbn [fst] in *.
      rewrite list_lookup_fmap in Hkey.
      rewrite !list_lookup_fmap in Hchild.
      destruct (props !! i') as [[k v]|] eqn:Hp; [|done].
      simpl in Hkey, Hchild. inversion Hkey; inversion Hchild; subst.
      destruct (lookup_lt_is_Some_2 runs i') as [[[s1 c] s2] Hr].
      { rewrite Hlen. by eapply lookup_lt_Some. }
      destruct (Hall i' segment child s1 c s2 Hp Hr) as (Hcall & Hp1 & _).
      by exists s1, c, s2.
    + intros key v s0 r s' Hcall. by eapply recurse_prefix.
    + done.
    + by rewrite lookup_app_r, Nat.sub_diag.
    + by apply prefix_app_r.
    + by apply prefix_length.
Qed.

(** A child of a container that is entered is dealt with by a call of
    [recurse] of its own, at the path of its position. *)
Lemma entered_child_call fl P (h0 : heap) :
  wf_heap h0 → stable P →
  ∀ route fuel v path (s : gset nat) st clone st' x ox segment child,
    h0 `prefix_of` st_heap st → val_in h0 v →
    recurse fl P fuel v path (Some s) st = Ok (clone, st') →
    enters P h0 s v route x = true →
    h0 !! x = Some ox → get_child ox segment = Some child →
    ∃ fuel' recursed s1 c s2,
      recurse fl P fuel' child (path_of_route path (route ++ [segment]))
        recursed s1
      = Ok (c, s2)
      ∧ h0 `prefix_of` st_heap s1.
Proof.
  intros Hwf Hstable.
  induction route as [|segment0 rest IH];
    intros fuel v path s st clone st' x ox segment child
      Hpre Hin Hrun Hent Hx Hget;
    apply enters_inv in Hent as (a & o & -> & Hfa & Hnew & Ha & Hclonable & Hroute);
    destruct (recurse_enter_calls fl P h0 fuel a o path s st clone st')
      as (fuel' & -> & Hall); try done.
  - subst x. rewrite Ha in Hx. inversion Hx; subst ox; clear Hx.
    destruct (Hall segment child Hget) as (s1 & c & s2 & Hcall & Hp1).
    by exists fuel', (Some ({[a]} ∪ s)), s1, c, s2.
  - destruct Hroute as (child0 & Hget0 & Hent).
    destruct (Hall segment0 child0 Hget0) as (s1 & c & s2 & Hcall & Hp1).
    apply get_child_inv in Hget0 as (i & Hslot & Hchild).
    by apply (IH fuel' child0 (child_path path segment0) ({[a]} ∪ s) s1 c s2
                x ox segment child Hp1
                (child_val_in h0 a o i child0 Hwf Ha Hchild) Hcall Hent Hx Hget).
Qed.

Lemma extract_child_call fl P (h : heap) fuel value path res route x ox segment child :
  wf_heap h → stable P → val_in h value →
  extractFiles fl P fuel h value path = Ok res →
  enters P h ∅ value route x = true →
  h !! x = Some ox → get_child ox segment = Some child →
  ∃ fuel' path' recursed s1 c s2,
    recurse fl P fuel' child path' recursed s1 = Ok (c, s2)
    ∧ h `prefix_of` st_heap s1.
Proof.
  intros Hwf Hstable Hin Hrun Hent Hx Hget. unfold extractFiles in Hrun.
  apply bind_Ok_inv in Hrun as ([clone st] & Hrun & Hres).
  destruct (entered_child_call fl P h Hwf Hstable route fuel value path ∅
              (mkState h []) clone st x ox segment child)
    as (fuel' & recursed & s1 & c & s2 & Hrec & Hpre); [done..|].
  by exists fuel', (path_of_route path (route ++ [segment])), recursed, s1, c, s2.
Qed.

Lemma extract_child fl P (h : heap) fuel value path res route x ox segment child :
  wf_heap h → proto_free h → stable P → val_in h value →
  extractFiles fl P fuel h value path = Ok res →
  enters P h ∅ value route x = true →
  h !! x = Some ox → get_child ox segment = Some child →
  ∃ fuel' s1 c s2,
    recurse fl P fuel' child (path_of_route path (route ++ [segment]))
      (Some (visited_at h ∅ value route)) s1
    = Ok (c, s2)
    ∧ h `prefix_of` st_heap s1 ∧ val_in h child
    ∧ follow (res_heap res) (res_clone res) (route ++ [segment]) = Some c.
Proof.
  intros Hwf Hproto Hstable Hin Hrun Hent Hx Hget. unfold extractFiles in Hrun.
  apply bind_Ok_inv in Hrun as ([clone st] & Hrun & Hres).
  inversion Hres; subst; clear Hres. cbn [res_heap res_clone].
  destruct (follow_entered_child fl P h Hwf Hproto Hstable route fuel value path ∅
              (mkState h []) clone st x ox segment child (st_heap st))
    as (fuel' & s1 & c & s2 & Hrec & Hpre & Hinc & _ & _ & _ & Hfollow);
    [done|done|done|done|done|done|apply agrees_refl|].
  by exists fuel', s1, c, s2.
Qed.

(** X4: inside a container that is entered, a child that the predicate
    rejects and that is no array, plain object or file list is in the
    clone as it is: the same primitive, or a reference to the same
    object of the input.  (The clone is read back at the keys of the
    input, so no plain object of the input has an own key [__proto__],
    which a clone does not get.) *)
Theorem nested_value_passes_through
    fl P (h : heap) fuel value path res route x ox segment child :
  wf_heap h → proto_free h → stable P → val_in h value →
  extractFiles fl P fuel h value path = Ok res →
  enters P h ∅ value route x = true →
  h !! x = Some ox → get_child ox segment = Some child →
  P h child = false → passes_through fl h child = true →
  follow (res_heap res) (res_clone res) (route ++ [segment]) = Some child.
Proof.
  intros Hwf Hproto Hstable Hin Hrun Hent Hx Hget Hfile Hpass.
  destruct (extract_child fl P h fuel value path res route x ox segment child)
    as (fuel' & s1 & c & s2 & Hrec & Hpre & Hinc & Hfollow); [done..|].
  destruct fuel' as [|fuel']; [done|].
  rewrite recurse_passes_through in Hrec.
  - by simplify_eq.
  - by rewrite (Hstable h (st_heap s1) child Hpre Hinc).
  - by rewrite (passes_through_prefix fl h (st_heap s1) child Hpre Hinc).
Qed.

Lemma nested_value_passes_through_witness :
  ∃ res,
    extractFiles true defaultIsExtractableFile 3 Tests.date (VRef 2) "" = Ok res
    ∧ follow (res_heap res) (res_clone res) ([] ++ ["0"]) = Some (VRef 0).
Proof.
  eexists. split; [reflexivity|].
  apply (nested_value_passes_through true defaultIsExtractableFile Tests.date 3
           (VRef 2) "" _ [] 2 (OArray [Some (VRef 0)]) "0" (VRef 0)).
  - apply wf_heap_decide. vm_compute. reflexivity.
  - apply proto_free_decide. vm_compute. reflexivity.
  - exact defaultIsExtractableFile_stable.
  - simpl. lia.
  - reflexivity.
  - reflexivity.
  - reflexivity.
  - reflexivity.
  - reflexivity.
  - reflexivity.
Defined.

(** ** References back to a container on the way *)

(** X5: a reference, inside a container that is entered, to a container on
    the way from the value given to that container (an ancestor at any
    depth, or the container itself) is not followed: the clone has, at
    that position, the reference to the original container, an object
    of the input and not one of the clones.  (The clone is read back at
    the keys of the input, so no plain object of the input has an own
    key [__proto__], which a clone does not get.) *)
Theorem ancestor_reference_kept
    fl P (h : heap) fuel value path res route x ox segment k y :
  wf_heap h → proto_free h → stable P → val_in h value →
  extractFiles fl P fuel h value path = Ok res →
  enters P h ∅ value route x = true →
  h !! x = Some ox → get_child ox segment = Some (VRef y) →
  follow h value (take k route) = Some (VRef y) →
  follow (res_heap res) (res_clone res) (route ++ [segment]) = Some (VRef y)
  ∧ y < length h.
Proof.
  intros Hwf Hproto Hstable Hin Hrun Hent Hx Hget Hanc.
  destruct (extract_child fl P h fuel value path res route x ox segment (VRef y))
    as (fuel' & s1 & c & s2 & Hrec & Hpre & Hinc & Hfollow); [done..|].
  split; [|done].
  pose proof (visited_at_ancestor P h ∅ value route x k y Hent Hanc) as Hvis.
  destruct (visited_at_inv P h ∅ value route x y Hent Hvis)
    as [Hin0|(Hfile & o & Hy & Hclonable)]; [by apply not_elem_of_empty in Hin0|].
  destruct fuel' as [|fuel']; [done|]. cbn [recurse] in Hrec.
  rewrite (Hstable h (st_heap s1) (VRef y) Hpre Hinc), Hfile in Hrec.
  rewrite (prefix_lookup_Some _ _ _ _ Hy Hpre) in Hrec.
  destruct o as [items|items|props|class props]; try done; simpl in Hrec;
    rewrite bool_decide_eq_true_2 in Hrec by done; by simplify_eq.
Qed.

Lemma ancestor_reference_kept_witness :
  ∃ res,
    extractFiles true defaultIsExtractableFile 4
      [OPlain [("a", VRef 1)]; OArray [Some (VRef 0)]] (VRef 0) ""
    = Ok res
    ∧ follow (res_heap res) (res_clone res) (["a"] ++ ["0"]) = Some (VRef 0)
    ∧ 0 < 2.
Proof.
  eexists. split; [reflexivity|].
  apply (ancestor_reference_kept true defaultIsExtractableFile
           [OPlain [("a", VRef 1)]; OArray [Some (VRef 0)]] 4
           (VRef 0) "" _ ["a"] 1 (OArray [Some (VRef 0)]) "0" 0 0).
  - apply wf_heap_decide. vm_compute. reflexivity.
  - apply proto_free_decide. vm_compute. reflexivity.
  - exact defaultIsExtractableFile_stable.
  - simpl. lia.
  - reflexivity.
  - reflexivity.
  - reflexivity.
  - reflexivity.
  - reflexivity.
Defined.

(** ** Arrays *)



(** [extractFiles([, file], 'p')]: the hole stays a hole and the file is
    recorded at [p.1]. *)
Example array_with_hole :
  extractFiles true defaultIsExtractableFile 2
    [OArray [None; Some (VRef 1)]; Tests.file] (VRef 0) "p"
  = Ok (mkResult (VRef 2) [(VRef 1, ["p.1"])]
          [OArray [None; Some (VRef 1)]; Tests.file; OArray [None; Some VNull]]).
Proof. vm_compute. reflexivity. Qed.

(** ** File lists *)

Lemma map_items_all_files P fuel path (h0 hpre : heap) :
  stable P → h0 `prefix_of` hpre →
  ∀ items index before files,
    Forall (val_in h0) (omap id items) →
    Forall (λ item, P h0 item = true) (omap id items) →
    length before = index →
    map_items
      (λ item i, recurse true P (S fuel) item
                   (child_path path (string_of_index i)) None)
      items index (length hpre)
      (mkState (hpre ++ [OArray (before ++ replicate (length items) None)]) files)
    = Ok (mkState (hpre ++ [OArray (before ++ (fmap (M := option) (λ _, VNull) <$> items))])
            (add_items path items index files)).
Proof.
  intros Hstable Hpre.
  induction items as [|[item|] rest IH]; intros index before files Hin Hall Hlen.
  - done.
  - csimpl in Hin. csimpl in Hall.
    apply Forall_cons in Hin as [Hitem Hin].
    apply Forall_cons in Hall as [Hfile Hall].
    cbn [map_items recurse st_heap st_files].
    rewrite (Hstable h0 _ item) by (by (etrans; [done|apply prefix_app_r]) || done).
    rewrite Hfile. cbn [mbind outcome_bind]. unfold store_item. cbn [st_heap st_files].
    rewrite alter_app_r_alt, Nat.sub_diag by done. cbn [alter list_alter].
    rewrite insert_app_r_alt, Hlen, Nat.sub_diag by lia.
    cbn [length replicate insert list_insert add_items fmap list_fmap].
    rewrite (cons_middle (Some VNull) before (replicate (length rest) None)).
    rewrite (cons_middle (Some VNull) before), !app_assoc.
    apply IH; [done|done|]. rewrite length_app. simpl. lia.
  - csimpl in Hin. csimpl in Hall.
    cbn [map_items length replicate add_items fmap list_fmap].
    rewrite (cons_middle None before (replicate (length rest) None)).
    rewrite (cons_middle None before), !app_assoc.
    apply IH; [done|done|]. rewrite length_app. simpl. lia.
Qed.

(** X7: a file list whose entries are extractable is replaced by a new
    array of its length with [null] for each entry; each entry is
    recorded under the path of its index, in index order; nothing else
    is added to the heap. *)
Theorem file_list_extracted P (h : heap) fuel a items path :
  wf_heap h → stable P →
  h !! a = Some (OFileList items) → P h (VRef a) = false →
  Forall (λ item, P h item = true) (omap id items) →
  extractFiles true P (S (S fuel)) h (VRef a) path
  = Ok (mkResult (VRef (length h)) (add_items path items 0 [])
          (h ++ [OArray (fmap (M := option) (λ _, VNull) <$> items)])).
Proof.
  intros Hwf Hstable Ha Hfile Hall. unfold extractFiles.
  remember (S fuel) as fuel' eqn:Hfuel. cbn [recurse st_heap]. subst fuel'.
  rewrite Hfile, Ha. cbn [alloc st_heap st_files].
  pose proof (wf_heap_lookup _ _ _ Hwf Ha) as [Hvals _]. cbn [obj_vals] in Hvals.
  pose proof (map_items_all_files P fuel path h h Hstable (reflexivity h) items 0 []
                [] Hvals Hall eq_refl) as Hloop.
  cbn [app] in Hloop. by rewrite Hloop.
Qed.

Lemma file_list_extracted_witness :
  extractFiles true defaultIsExtractableFile 2 Tests.file_list (VRef 0) ""
  = Ok (mkResult (VRef 3) [(VRef 1, ["0"]); (VRef 2, ["1"])]
          (Tests.file_list ++ [OArray [Some VNull; Some VNull]])).
Proof.
  apply (file_list_extracted defaultIsExtractableFile Tests.file_list 0 0
           [Some (VRef 1); Some (VRef 2)] "").
  - apply wf_heap_decide. vm_compute. reflexivity.
  - exact defaultIsExtractableFile_stable.
  - reflexivity.
  - reflexivity.
  - repeat constructor.
Defined.

(** The entries of a file list are visited with no visited set, and a
    call of [recurse] on an array or a plain object reads that set. *)
Lemma recurse_container_no_set P (h0 : heap) fuel b ob path st :
  stable P → h0 `prefix_of` st_heap st →
  h0 !! b = Some ob → clonable ob = true → P h0 (VRef b) = false →
  recurse true P (S fuel) (VRef b) path None st = TypeError.
Proof.
  intros Hstable Hpre Hb Hclonable Hfile.
  assert (Hlt : b < length h0) by (by eapply lookup_lt_Some).
  cbn [recurse].
  rewrite (Hstable h0 (st_heap st) (VRef b) Hpre Hlt), Hfile.
  rewrite (prefix_lookup_Some _ _ _ _ Hb Hpre).
  by destruct ob as [items|items|props|class props].
Qed.

Lemma recurse_file_list_of_container
    P (h0 : heap) fuel a items b ob path recursed st r :
  stable P → h0 `prefix_of` st_heap st →
  h0 !! a = Some (OFileList items) → Some (VRef b) ∈ items →
  h0 !! b = Some ob → clonable ob = true →
  P h0 (VRef a) = false → P h0 (VRef b) = false →
  recurse true P fuel (VRef a) path recursed st ≠ Ok r.
Proof.
  intros Hstable Hpre Ha Hitem Hb Hclonable Hfa Hfb Hrun.
  assert (Hlt : a < length h0) by (by eapply lookup_lt_Some).
  destruct fuel as [|fuel]; [done|]. simpl in Hrun.
  rewrite (Hstable h0 (st_heap st) (VRef a) Hpre Hlt), Hfa in Hrun.
  rewrite (prefix_lookup_Some _ _ _ _ Ha Hpre) in Hrun.
  apply bind_Ok_inv in Hrun as (st2 & Hloop & _).
  eapply (map_items_runs h0 _ _ _ _ _ _ []) in Hloop
    as (runs & _ & _ & _ & Hall & _); simpl.
  - apply list_elem_of_lookup in Hitem as [i Hi].
    destruct (Hall i (VRef b) Hi) as (s1 & c & s2 & _ & Hcall & Hp1 & _).
    destruct fuel as [|fuel]; [done|].
    by rewrite (recurse_container_no_set P h0 fuel b ob _ s1) in Hcall.
  - intros item i [] s0 r0 s' Hcall. by eapply recurse_prefix.
  - by rewrite lookup_app_r, Nat.sub_diag.
  - done.
  - by apply prefix_app_r.
  - by apply prefix_length.
Qed.

(** X8: a file list that holds an array or a plain object (one the
    predicate rejects) makes the call fail wherever the file list is:
    as the value given, or as a child of a container that is entered.
    [extractFiles] returns no result then, at any depth budget and for
    any path prefix. *)
Theorem file_list_holding_container_never_returns
    P (h : heap) value a items b ob :
  wf_heap h → stable P → val_in h value →
  h !! a = Some (OFileList items) → Some (VRef b) ∈ items →
  h !! b = Some ob → clonable ob = true →
  P h (VRef a) = false → P h (VRef b) = false →
  (value = VRef a
   ∨ ∃ route x ox segment,
       enters P h ∅ value route x = true ∧ h !! x = Some ox
       ∧ get_child ox segment = Some (VRef a)) →
  ∀ fuel path res, extractFiles true P fuel h value path ≠ Ok res.
Proof.
  intros Hwf Hstable Hin Ha Hitem Hb Hclonable Hfa Hfb Hpos fuel path res Hrun.
  destruct Hpos as [->|(route & x & ox & segment & Hent & Hx & Hget)].
  - unfold extractFiles in Hrun.
    apply bind_Ok_inv in Hrun as ([clone st] & Hrun & _).
    by eapply (recurse_file_list_of_container P h fuel a items b ob) in Hrun.
  - destruct (extract_child_call true P h fuel value path res route x ox segment
                (VRef a))
      as (fuel' & path' & recursed & s1 & c & s2 & Hrec & Hpre); [done..|].
    by eapply (recurse_file_list_of_container P h fuel' a items b ob) in Hrec.
Qed.

Lemma file_list_holding_container_never_returns_witness :
  extractFiles true defaultIsExtractableFile 9
    [OPlain [("files", VRef 1)]; OFileList [Some (VRef 2)]; OArray []]
    (VRef 0) ""
  ≠ Ok (mkResult (VRef 3) []
          [OPlain [("files", VRef 1)]; OFileList [Some (VRef 2)]; OArray [];
           OPlain [("files", VRef 4)]; OArray [Some (VRef 2)]]).
Proof.
  refine (file_list_holding_container_never_returns defaultIsExtractableFile
            [OPlain [("files", VRef 1)]; OFileList [Some (VRef 2)]; OArray []]
            (VRef 0) 1 [Some (VRef 2)] 2 (OArray []) _ _ _ _ _ _ _ _ _ _ 9 "" _).
  - apply wf_heap_decide. vm_compute. reflexivity.
  - exact defaultIsExtractableFile_stable.
  - simpl. lia.
  - reflexivity.
  - apply list_elem_of_singleton. reflexivity.
  - reflexivity.
  - reflexivity.
  - reflexivity.
  - reflexivity.
  - right. exists [], 0, (OPlain [("files", VRef 1)]), "files".
    split_and!; reflexivity.
Defined.

Lemma map_items_throws (h0 : heap) callback bad rest target :
  (∀ item i, extends_heap (λ _ : unit, callback item i)) →
  (∀ i s, h0 `prefix_of` st_heap s → callback bad i s = TypeError) →
  length h0 ≤ target →
  ∀ before index st,
    (∀ item i s, item ∈ omap id before → h0 `prefix_of` st_heap s →
       ∃ c s', callback item i s = Ok (c, s')) →
    h0 `prefix_of` st_heap st →
    map_items callback (before ++ Some bad :: rest) index target st = TypeError.
Proof.
  intros Hcb Hbad Hle.
  induction before as [|[item|] before IH]; intros index st Hok Hpre.
  - simpl. by rewrite Hbad.
  - cbn [app map_items].
    destruct (Hok item index st) as (c & s' & Hcall); [by left|done|].
    rewrite Hcall. cbn [mbind outcome_bind].
    apply IH.
    + intros item' i s Hin. apply Hok. by right.
    + apply store_item_prefix; [|done].
      etrans; [done|]. by apply (Hcb item index () st c s').
  - cbn [app map_items]. by apply IH.
Qed.

(** X9: the failure is a [TypeError], thrown by the read of [.has] on the
    visited set that was not passed, when the entries before the array
    or plain object are extractable or are no containers. *)
Theorem file_list_holding_container_throws
    P (h : heap) fuel a before b ob rest path :
  wf_heap h → stable P →
  h !! a = Some (OFileList (before ++ Some (VRef b) :: rest)) →
  h !! b = Some ob → clonable ob = true →
  P h (VRef a) = false → P h (VRef b) = false →
  Forall (λ item, P h item || negb (is_container h item) = true)
    (omap id before) →
  extractFiles true P (S (S fuel)) h (VRef a) path = TypeError.
Proof.
  intros Hwf Hstable Ha Hb Hclonable Hfa Hfb Hflat. unfold extractFiles.
  remember (S fuel) as fuel' eqn:Hfuel. cbn [recurse st_heap]. subst fuel'.
  rewrite Hfa, Ha. cbn [alloc st_heap st_files].
  pose proof (wf_heap_lookup _ _ _ Hwf Ha) as [Hvals _]. cbn [obj_vals] in Hvals.
  rewrite omap_app in Hvals. apply Forall_app in Hvals as [Hvals _].
  rewrite (map_items_throws h _ (VRef b) rest (length h)); [done| | |done| |].
  - intros item i [] s0 r0 s' Hcall. by eapply recurse_prefix.
  - intros i s Hpre. by apply (recurse_container_no_set P h fuel b ob).
  - intros item i s Hitem Hpre.
    apply (recurse_flat_entry true P h fuel item _ None s); [done|done| |].
    + by eapply (proj1 (Forall_forall _ _)) in Hvals.
    + by eapply (proj1 (Forall_forall _ _)) in Hflat.
  - by apply prefix_app_r.
Qed.

Lemma file_list_holding_container_throws_witness :
  extractFiles true defaultIsExtractableFile 2
    [OFileList [Some (VRef 1); Some (VRef 2)]; OOther "File" []; OPlain []]
    (VRef 0) ""
  = TypeError.
Proof.
  apply (file_list_holding_container_throws defaultIsExtractableFile
           [OFileList [Some (VRef 1); Some (VRef 2)]; OOther "File" []; OPlain []]
           0 0 [Some (VRef 1)] 2 (OPlain []) [] "").
  - apply wf_heap_decide. vm_compute. reflexivity.
  - exact defaultIsExtractableFile_stable.
  - reflexivity.
  - reflexivity.
  - reflexivity.
  - reflexivity.
  - reflexivity.
  - repeat constructor.
Defined.

(** ** A file list that holds itself *)

Lemma recurse_file_list_of_itself P (h0 : heap) a items :
  stable P → h0 !! a = Some (OFileList items) → Some (VRef a) ∈ items →
  P h0 (VRef a) = false →
  ∀ fuel path recursed st r,
    h0 `prefix_of` st_heap st →
    recurse true P fuel (VRef a) path recursed st ≠ Ok r.
Proof.
  intros Hstable Ha Hitem Hfa.
  assert (Hlt : a < length h0) by (by eapply lookup_lt_Some).
  induction fuel as [|fuel IH]; intros path recursed st r Hpre Hrun; [done|].
  simpl in Hrun.
  rewrite (Hstable h0 (st_heap st) (VRef a) Hpre Hlt), Hfa in Hrun.
  rewrite (prefix_lookup_Some _ _ _ _ Ha Hpre) in Hrun.
  apply bind_Ok_inv in Hrun as (st2 & Hloop & _).
  eapply (map_items_runs h0 _ _ _ _ _ _ []) in Hloop
    as (runs & _ & _ & _ & Hall & _); simpl.
  - apply list_elem_of_lookup in Hitem as [i Hi].
    destruct (Hall i (VRef a) Hi) as (s1 & c & s2 & _ & Hcall & Hp1 & _).
    by apply IH in Hcall.
  - intros item i [] s0 r0 s' Hcall. by eapply recurse_prefix.
  - by rewrite lookup_app_r, Nat.sub_diag.
  - done.
  - by apply prefix_app_r.
  - by apply prefix_length.
Qed.

(** X10: the entries of a file list are visited without the visited set, so
    nothing stops the recursion at a file list that holds itself:
    [extractFiles] returns no result then, however large the depth
    budget, whether the file list is the value given or a child of a
    container that is entered. *)
Theorem file_list_holding_itself_never_returns P (h : heap) value a items :
  wf_heap h → stable P → val_in h value →
  h !! a = Some (OFileList items) → Some (VRef a) ∈ items →
  P h (VRef a) = false →
  (value = VRef a
   ∨ ∃ route x ox segment,
       enters P h ∅ value route x = true ∧ h !! x = Some ox
       ∧ get_child ox segment = Some (VRef a)) →
  ∀ fuel path res, extractFiles true P fuel h value path ≠ Ok res.
Proof.
  intros Hwf Hstable Hin Ha Hitem Hfa Hpos fuel path res Hrun.
  destruct Hpos as [->|(route & x & ox & segment & Hent & Hx & Hget)].
  - unfold extractFiles in Hrun.
    apply bind_Ok_inv in Hrun as ([clone st] & Hrun & _).
    by eapply (recurse_file_list_of_itself P h a items) in Hrun.
  - destruct (extract_child_call true P h fuel value path res route x ox segment
                (VRef a))
      as (fuel' & path' & recursed & s1 & c & s2 & Hrec & Hpre); [done..|].
    by eapply (recurse_file_list_of_itself P h a items) in Hrec.
Qed.

Lemma file_list_holding_itself_never_returns_witness :
  extractFiles true defaultIsExtractableFile 9 [OFileList [Some (VRef 0)]]
    (VRef 0) ""
  ≠ Ok (mkResult (VRef 1) [] [OFileList [Some (VRef 0)]; OArray [Some (VRef 1)]]).
Proof.
  refine (file_list_holding_itself_never_returns defaultIsExtractableFile
            [OFileList [Some (VRef 0)]] (VRef 0) 0 [Some (VRef 0)]
            _ _ _ _ _ _ _ 9 "" _).
  - apply wf_heap_decide. vm_compute. reflexivity.
  - exact defaultIsExtractableFile_stable.
  - simpl. lia.
  - reflexivity.
  - apply list_elem_of_singleton. reflexivity.
  - reflexivity.
  - by left.
Defined.

(** ** When paths tell positions apart *)

Lemma string_app_nil_r (s : string) : s +:+ "" = s.
Proof.
  induction s as [|c s IH]; [done|].
  change (String c (s +:+ "") = String c s). by f_equal.
Qed.

Lemma string_app_inv_head (s t1 t2 : string) : s +:+ t1 = s +:+ t2 → t1 = t2.
Proof.
  induction s as [|c s IH]; [done|].
  change (String c (s +:+ t1) = String c (s +:+ t2) → t1 = t2).
  intros [= Heq]. by apply IH.
Qed.

Lemma concat_cons_tail (first : string) (rest : list string) :
  String.concat "." (first :: rest)
  = first +:+ match rest with
              | [] => ""
              | _ => "." +:+ String.concat "." rest
              end.
Proof. destruct rest; [|done]. simpl. by rewrite string_app_nil_r. Qed.

(** Where a segment without dots ends in a string: at the end of the
    string or at its first dot. *)
Lemma dot_free_app_inv (x y t1 t2 : string) :
  dot_free x = true → dot_free y = true →
  (t1 = "" ∨ ∃ t, t1 = String "." t) → (t2 = "" ∨ ∃ t, t2 = String "." t) →
  x +:+ t1 = y +:+ t2 → x = y ∧ t1 = t2.
Proof.
  revert y. induction x as [|c x IH]; intros [|d y] Hx Hy Ht1 Ht2.
  - done.
  - change (t1 = String d (y +:+ t2) → "" = String d y ∧ t1 = t2).
    intros ->. destruct Ht1 as [|[t [= -> _]]]; [done|]. done.
  - change (String c (x +:+ t1) = t2 → String c x = "" ∧ t1 = t2).
    intros <-. destruct Ht2 as [|[t [= -> _]]]; [done|]. done.
  - change (String c (x +:+ t1) = String d (y +:+ t2)
            → String c x = String d y ∧ t1 = t2).
    intros [= -> Heq]. simpl in Hx, Hy.
    apply andb_true_iff in Hx as [_ Hx]. apply andb_true_iff in Hy as [_ Hy].
    destruct (IH y Hx Hy Ht1 Ht2 Heq) as [-> ->]. done.
Qed.

Lemma plain_segment_inv (segment : string) :
  plain_segment segment = true → segment ≠ "" ∧ dot_free segment = true.
Proof.
  unfold plain_segment. intros [Hne Hfree]%andb_true_iff. split; [|done].
  intros ->. done.
Qed.

Lemma concat_plain_inj (route1 route2 : list string) :
  Forall (λ segment, plain_segment segment = true) route1 →
  Forall (λ segment, plain_segment segment = true) route2 →
  String.concat "." route1 = String.concat "." route2 → route1 = route2.
Proof.
  revert route2. induction route1 as [|x route1 IH]; intros [|y route2] H1 H2.
  - done.
  - apply Forall_cons in H2 as [[Hy _]%plain_segment_inv _].
    rewrite concat_cons_tail. destruct y; done.
  - apply Forall_cons in H1 as [[Hx _]%plain_segment_inv _].
    rewrite concat_cons_tail. destruct x; done.
  - apply Forall_cons in H1 as [[_ Hx]%plain_segment_inv H1].
    apply Forall_cons in H2 as [[_ Hy]%plain_segment_inv H2].
    rewrite !concat_cons_tail. intros Heq.
    apply dot_free_app_inv in Heq as [-> Htail]; [|done|done| |].
    + f_equal. destruct route1 as [|x1 route1], route2 as [|y2 route2];
        [done|done|done|].
      apply IH; [done|done|]. by apply (string_app_inv_head ".").
    + destruct route1; [by left|right; by eexists].
    + destruct route2; [by left|right; by eexists].
Qed.

Lemma path_of_route_plain (route : list string) :
  Forall (λ segment, plain_segment segment = true) route →
  path_of_route "" route = String.concat "." route.
Proof.
  destruct route as [|segment route]; [done|].
  intros [[Hne _]%plain_segment_inv _]%Forall_cons.
  change (path_of_route "" (segment :: route))
    with (path_of_route (child_path "" segment) route).
  rewrite child_path_step. by apply path_of_route_join.
Qed.

Lemma dot_free_digits (d : Decimal.uint) :
  dot_free (NilEmpty.string_of_uint d) = true.
Proof. induction d; done. Qed.

(** X11: the paths of two positions under one prefix differ when no segment
    on the way to either is empty or has a dot in it, which is so of
    every array index: the path then gives the position.  (With a key
    that is empty or has a dot, two positions can have one path.) *)
Theorem plain_paths_tell_positions_apart (path : string) (route1 route2 : list string) :
  Forall (λ segment, plain_segment segment = true) route1 →
  Forall (λ segment, plain_segment segment = true) route2 →
  path_of_route path route1 = path_of_route path route2 →
  route1 = route2.
Proof.
  intros H1 H2 Heq. destruct (decide (path = "")) as [->|Hne].
  - rewrite !path_of_route_plain in Heq by done. by apply concat_plain_inj.
  - rewrite !path_of_route_join, !concat_cons_tail in Heq by done.
    apply string_app_inv_head in Heq.
    destruct route1 as [|x1 route1], route2 as [|y2 route2]; [done|done|done|].
    apply concat_plain_inj; [done|done|]. by apply (string_app_inv_head ".").
Qed.

Lemma plain_paths_tell_positions_apart_witness : ["a"; "0"] = ["a"; "0"].
Proof.
  apply (plain_paths_tell_positions_apart "prefix" ["a"; "0"] ["a"; "0"]).
  - repeat constructor.
  - repeat constructor.
  - reflexivity.
Defined.

(** X12: the segment of an array index is not empty and has no dot, and the
    segments of two indices are the same only for the same index; so
    are the paths of two children of one container only for the same
    key. *)
Theorem sibling_paths_differ (path : string) :
  (∀ i, plain_segment (string_of_index i) = true)
  ∧ (∀ i j, child_path path (string_of_index i)
            = child_path path (string_of_index j) → i = j)
  ∧ (∀ key1 key2, child_path path key1 = child_path path key2 → key1 = key2).
Proof.
  assert (Hkeys : ∀ key1 key2,
             child_path path key1 = child_path path key2 → key1 = key2).
  { intros key1 key2. unfold child_path. apply string_app_inv_head. }
  split_and!; [|intros i j Heq|done].
  - intros i. unfold plain_segment. apply andb_true_iff. split.
    + pose proof (string_of_index_nonempty i) as Hne.
      by destruct (string_of_index i).
    + apply dot_free_digits.
  - apply Hkeys in Heq.
    apply (f_equal index_of_string) in Heq.
    rewrite !index_of_string_of_index in Heq. by simplify_eq.
Qed.

Lemma sibling_paths_differ_witness : 10 = 10.
Proof.
  apply (proj1 (proj2 (sibling_paths_differ "a")) 10 10). reflexivity.
Defined.

(** [{ "a.b": f1, a: { b: f2 } }]: the key with a dot and the nested
    key give one path. *)
Example dotted_key_same_path :
  path_of_route "" ["a.b"] = path_of_route "" ["a"; "b"].
Proof. reflexivity. Qed.

(** ** The path prefix *)

Lemma counts_files_get f (files files' : file_map) :
  counts files = counts files' →
  files_get f files = None → files_get f files' = None.
Proof.
  revert files'. induction files as [|[k ps] rest IH]; intros [|[k' ps'] rest'] Heq;
    try done.
  unfold counts in Heq. csimpl in Heq. injection Heq as -> _ Hrest. simpl.
  destruct (decide (k' = f)); [done|]. by apply IH.
Qed.

Lemma counts_files_push f p p' (files files' : file_map) :
  counts files = counts files' →
  counts (files_push f p files) = counts (files_push f p' files').
Proof.
  revert files'. induction files as [|[k ps] rest IH]; intros [|[k' ps'] rest'] Heq;
    try done.
  unfold counts in Heq. csimpl in Heq. injection Heq as -> Hlen Hrest. simpl.
  destruct (decide (k' = f)).
  - unfold counts. csimpl. rewrite !length_app, Hlen. by f_equal.
  - unfold counts. csimpl. f_equal; [by rewrite Hlen|]. by apply IH.
Qed.

Lemma counts_addFile f p p' (files files' : file_map) :
  counts files = counts files' →
  counts (addFile f p files) = counts (addFile f p' files').
Proof.
  intros Heq. unfold addFile.
  destruct (files_get f files) as [ps|] eqn:Hget;
    destruct (files_get f files') as [ps'|] eqn:Hget'.
  - by apply counts_files_push.
  - apply (counts_files_get f files' files) in Hget'; [congruence|done].
  - apply (counts_files_get f files files') in Hget; [congruence|done].
  - unfold counts in *. rewrite !fmap_app. by f_equal.
Qed.

Lemma map_items_sim cb cb' items target :
  (∀ item i t t1 c t',
     st_heap t = st_heap t1 → counts (st_files t) = counts (st_files t1) →
     cb item i t = Ok (c, t') →
     ∃ t1', cb' item i t1 = Ok (c, t1') ∧ st_heap t' = st_heap t1'
            ∧ counts (st_files t') = counts (st_files t1')) →
  ∀ index s s1 s',
    st_heap s = st_heap s1 → counts (st_files s) = counts (st_files s1) →
    map_items cb items index target s = Ok s' →
    ∃ s1', map_items cb' items index target s1 = Ok s1'
           ∧ st_heap s' = st_heap s1'
           ∧ counts (st_files s') = counts (st_files s1').
Proof.
  intros Hcb. induction items as [|[item|] rest IH];
    intros index s s1 s' Hheap Hfiles Hrun; simpl in Hrun |- *.
  - inversion Hrun; subst. by exists s1.
  - apply bind_Ok_inv in Hrun as ([c t'] & Hcall & Hrun).
    destruct (Hcb item index s s1 c t' Hheap Hfiles Hcall)
      as (t1' & -> & Hheap' & Hfiles'). simpl.
    eapply IH; [| |done].
    + unfold store_item. cbn [st_heap]. by rewrite Hheap'.
    + done.
  - by eapply IH.
Qed.

Lemma for_in_sim body body' props target :
  (∀ key v t t1 c t',
     st_heap t = st_heap t1 → counts (st_files t) = counts (st_files t1) →
     body key v t = Ok (c, t') →
     ∃ t1', body' key v t1 = Ok (c, t1') ∧ st_heap t' = st_heap t1'
            ∧ counts (st_files t') = counts (st_files t1')) →
  ∀ s s1 s',
    st_heap s = st_heap s1 → counts (st_files s) = counts (st_files s1) →
    for_in body props target s = Ok s' →
    ∃ s1', for_in body' props target s1 = Ok s1'
           ∧ st_heap s' = st_heap s1'
           ∧ counts (st_files s') = counts (st_files s1').
Proof.
  intros Hbody. induction props as [|[key v] rest IH];
    intros s s1 s' Hheap Hfiles Hrun; simpl in Hrun |- *.
  - inversion Hrun; subst. by exists s1.
  - apply bind_Ok_inv in Hrun as ([c t'] & Hcall & Hrun).
    destruct (Hbody key v s s1 c t' Hheap Hfiles Hcall)
      as (t1' & -> & Hheap' & Hfiles'). simpl.
    eapply IH; [| |done].
    + unfold store_prop. destruct (decide (key = "__proto__")); [done|].
      cbn [st_heap]. by rewrite Hheap'.
    + by rewrite !store_prop_files.
Qed.

Lemma recurse_path_independent fl P fuel :
  ∀ value p p' recursed s s1 clone s',
    st_heap s = st_heap s1 → counts (st_files s) = counts (st_files s1) →
    recurse fl P fuel value p recursed s = Ok (clone, s') →
    ∃ s1', recurse fl P fuel value p' recursed s1 = Ok (clone, s1')
           ∧ st_heap s' = st_heap s1'
           ∧ counts (st_files s') = counts (st_files s1').
Proof.
  induction fuel as [|fuel IH];
    intros value p p' recursed [h files] [h1 files1] clone s' Hheap Hfiles Hrun;
    [done|].
  cbn [st_heap st_files] in Hheap, Hfiles. subst h1.
  cbn [recurse st_heap st_files alloc] in Hrun |- *.
  destruct (P h value).
  { inversion Hrun; subst; clear Hrun. eexists. split; [done|].
    split; [done|]. by apply counts_addFile. }
  destruct value as [| | | | |a];
    try (inversion Hrun; subst; clear Hrun; by eexists).
  destruct (h !! a) as [[items|items|props|class props]|];
    try (inversion Hrun; subst; clear Hrun; by eexists).
  - apply bind_Ok_inv in Hrun as (seen & -> & Hrun).
    cbn [mbind outcome_bind] in Hrun |- *.
    destruct seen; [inversion Hrun; subst; clear Hrun; by eexists|].
    apply bind_Ok_inv in Hrun as (st2 & Hloop & Hrun).
    inversion Hrun; subst; clear Hrun.
    eapply (map_items_sim _
              (λ item index,
                 recurse fl P fuel item (child_path p' (string_of_index index))
                   (recursed_add recursed a)) _ _
              (λ item i t t1 c t' Ht Hf Hcall, IH _ _ _ _ _ _ _ _ Ht Hf Hcall) 0 _
              (mkState (h ++ [OArray (replicate (length items) None)]) files1))
      in Hloop as (s1' & Hloop' & Hheap' & Hfiles'); [|done..].
    rewrite Hloop'. by exists s1'.
  - destruct fl; [|inversion Hrun; subst; clear Hrun; by eexists].
    apply bind_Ok_inv in Hrun as (st2 & Hloop & Hrun).
    inversion Hrun; subst; clear Hrun.
    eapply (map_items_sim _
              (λ item index,
                 recurse true P fuel item (child_path p' (string_of_index index))
                   None) _ _
              (λ item i t t1 c t' Ht Hf Hcall, IH _ _ _ _ _ _ _ _ Ht Hf Hcall) 0 _
              (mkState (h ++ [OArray (replicate (length items) None)]) files1))
      in Hloop as (s1' & Hloop' & Hheap' & Hfiles'); [|done..].
    rewrite Hloop'. by exists s1'.
  - apply bind_Ok_inv in Hrun as (seen & -> & Hrun).
    cbn [mbind outcome_bind] in Hrun |- *.
    destruct seen; [inversion Hrun; subst; clear Hrun; by eexists|].
    apply bind_Ok_inv in Hrun as (st2 & Hloop & Hrun).
    inversion Hrun; subst; clear Hrun.
    eapply (for_in_sim _
              (λ key v,
                 recurse fl P fuel v (child_path p' key)
                   (recursed_add recursed a)) _ _
              (λ key v t t1 c t' Ht Hf Hcall, IH _ _ _ _ _ _ _ _ Ht Hf Hcall) _
              (mkState (h ++ [OPlain []]) files1))
      in Hloop as (s1' & Hloop' & Hheap' & Hfiles'); [|done..].
    rewrite Hloop'. by exists s1'.
Qed.

(** X13: the path prefix is used for the recorded paths and for nothing
    else: with another prefix [extractFiles] returns the same clone in
    the same heap, and a map with the same files in the same order,
    each with as many paths. *)
Theorem path_prefix_only_in_paths fl P fuel (h : heap) value path path' res :
  extractFiles fl P fuel h value path = Ok res →
  ∃ res',
    extractFiles fl P fuel h value path' = Ok res'
    ∧ res_clone res' = res_clone res
    ∧ res_heap res' = res_heap res
    ∧ counts (res_files res') = counts (res_files res).
Proof.
  unfold extractFiles. intros Hrun.
  apply bind_Ok_inv in Hrun as ([clone st] & Hrun & Hres).
  inversion Hres; subst; clear Hres.
  destruct (recurse_path_independent fl P fuel value path path' (Some ∅)
              (mkState h []) (mkState h []) clone st)
    as (s1' & -> & Hheap & Hfiles); [done..|].
  simpl. eexists. split; [done|]. by split_and!.
Qed.

Lemma path_prefix_only_in_paths_witness :
  ∃ res',
    extractFiles true defaultIsExtractableFile 3 Tests.nested (VRef 0) "" = Ok res'
    ∧ res_clone res' = VRef 3
    ∧ res_heap res' = Tests.nested ++ [OPlain [("a", VRef 4)]; OArray [Some VNull]]
    ∧ counts (res_files res') = [(VRef 2, 1)].
Proof.
  apply (path_prefix_only_in_paths true defaultIsExtractableFile 3 Tests.nested
           (VRef 0) "prefix" ""
           (mkResult (VRef 3) [(VRef 2, ["prefix.a.0"])]
              (Tests.nested ++ [OPlain [("a", VRef 4)]; OArray [Some VNull]]))).
  vm_compute. reflexivity.
Defined.

(** ** The entries of the map *)

Lemma leaf_routes_none fl P (h : heap) fuel value recursed :
  wf_heap h → (∀ v, P h v = false) →
  leaf_routes fl P fuel h value recursed = [].
Proof.
  intros Hwf Hnone.
  destruct (leaf_routes fl P fuel h value recursed) as [|[f route] found] eqn:Hfound;
    [done|].
  destruct (leaf_routes_sound fl P h Hwf fuel value recursed f route) as [_ Hf].
  - rewrite Hfound. by left.
  - by rewrite Hnone in Hf.
Qed.

(** X14: every entry of the map is a value the predicate accepts, has at
    least one path, and each of its paths is the path of a position of
    the input at which that value is.  A predicate that accepts nothing
    gives an empty map. *)
Theorem map_entries_are_files_of_input fl P (h : heap) fuel value path res :
  wf_heap h → stable P → val_in h value →
  extractFiles fl P fuel h value path = Ok res →
  (∀ f paths,
     (f, paths) ∈ res_files res →
     P h f = true ∧ paths ≠ []
     ∧ ∀ p, p ∈ paths →
         ∃ route, follow h value route = Some f ∧ p = path_of_route path route)
  ∧ ((∀ v, P h v = false) → res_files res = []).
Proof.
  intros Hwf Hstable Hin Hrun.
  rewrite (extract_files_index fl P h fuel value path res) by done.
  split.
  - intros f paths Hentry.
    assert (Hpaths : ∀ p, p ∈ paths →
              ∃ route, (follow h value route = Some f ∧ P h f = true)
                       ∧ p = path_of_route path route).
    { intros p Hp. pose proof (elem_of_path_index _ _ _ _ Hentry Hp) as Hlog.
      unfold log_of in Hlog.
      apply list_elem_of_fmap in Hlog as ([g route] & [= -> ->] & Hfound).
      exists route. split; [|done]. by eapply leaf_routes_sound. }
    unfold path_index in Hentry.
    apply list_elem_of_fmap in Hentry as (g & [= <- ->] & Hseen).
    apply (proj1 (elem_of_first_seen _ _)) in Hseen.
    apply list_elem_of_fmap in Hseen as ([g q] & -> & Hlog). cbn [fst] in *.
    assert (Hq : q ∈ paths_of g (log_of path (leaf_routes fl P fuel h value (Some ∅)))).
    { unfold paths_of. apply list_elem_of_fmap. exists (g, q). split; [done|].
      by apply list_elem_of_filter. }
    split_and!.
    + by destruct (Hpaths q Hq) as (route & [_ Hg] & _).
    + intros Hnil. rewrite Hnil in Hq. by apply elem_of_nil in Hq.
    + intros p Hp. destruct (Hpaths p Hp) as (route & [Hfollow _] & ->).
      by exists route.
  - intros Hnone. by rewrite leaf_routes_none.
Qed.

Lemma map_entries_are_files_of_input_witness :
  defaultIsExtractableFile Tests.nested (VRef 2) = true
  ∧ ["prefix.a.0"] ≠ []
  ∧ ∀ p, p ∈ ["prefix.a.0"] →
      ∃ route, follow Tests.nested (VRef 0) route = Some (VRef 2)
               ∧ p = path_of_route "prefix" route.
Proof.
  refine (proj1 (map_entries_are_files_of_input true defaultIsExtractableFile
                   Tests.nested 3 (VRef 0) "prefix"
                   (mkResult (VRef 3) [(VRef 2, ["prefix.a.0"])]
                      (Tests.nested ++ [OPlain [("a", VRef 4)]; OArray [Some VNull]]))
                   _ _ _ _)
            (VRef 2) ["prefix.a.0"] _).
  - apply wf_heap_decide. vm_compute. reflexivity.
  - exact defaultIsExtractableFile_stable.
  - simpl. lia.
  - vm_compute. reflexivity.
  - apply list_elem_of_singleton. reflexivity.
Defined.

(** ** Instances of the marker class as values *)

(** X15: what the constructor makes is a new object: the heap it returns
    extends the heap it was given by the instance and nothing else, so
    the argument is as it was.  With the default predicate
    [extractFiles] takes the instance for a file: the clone is [null]
    and the map has the instance under the path prefix. *)
Theorem ReactNativeFile_instance_is_extracted
    fl fuel (h : heap) file inst (h' : heap) path :
  ReactNativeFile h file = Ok (inst, h') →
  inst = VRef (length h)
  ∧ h `prefix_of` h' ∧ length h' = S (length h)
  ∧ extractFiles fl defaultIsExtractableFile (S fuel) h' inst path
    = Ok (mkResult VNull [(inst, [path])] h').
Proof.
  intros Hnew.
  assert (Hinst : inst = VRef (length h)
                  ∧ ∃ this, h' = h ++ [OOther "ReactNativeFile" this]).
  { destruct file; simpl in Hnew; try done; inversion Hnew; subst; by eauto. }
  destruct Hinst as (-> & this & ->). split_and!.
  - done.
  - by apply prefix_app_r.
  - rewrite length_app. simpl. lia.
  - unfold extractFiles. cbn [recurse st_heap defaultIsExtractableFile].
    by rewrite lookup_app_r, Nat.sub_diag.
Qed.

Lemma ReactNativeFile_instance_is_extracted_witness :
  VRef 1 = VRef (length [OPlain [("uri", VStr "x")]])
  ∧ [OPlain [("uri", VStr "x")]] `prefix_of`
      [OPlain [("uri", VStr "x")];
       OOther "ReactNativeFile"
         [("uri", VStr "x"); ("name", VUndefined); ("type", VUndefined)]]
  ∧ 2 = S (length [OPlain [("uri", VStr "x")]])
  ∧ extractFiles true defaultIsExtractableFile 1
      [OPlain [("uri", VStr "x")];
       OOther "ReactNativeFile"
         [("uri", VStr "x"); ("name", VUndefined); ("type", VUndefined)]]
      (VRef 1) "file"
    = Ok (mkResult VNull [(VRef 1, ["file"])]
            [OPlain [("uri", VStr "x")];
             OOther "ReactNativeFile"
               [("uri", VStr "x"); ("name", VUndefined); ("type", VUndefined)]]).
Proof.
  apply (ReactNativeFile_instance_is_extracted true 0
           [OPlain [("uri", VStr "x")]] (VRef 0)).
  reflexivity.
Defined.
